(** * The work-stealing task queue of [taskqueue.hpp]

    A shallow embedding of [TaskQueueSuper], [GenericTaskQueue<E>] and
    [GenericTaskQueueSet<E>].

    Machine integers are [Z] with the conversions written out.  A queue
    operation is a program of atomic accesses to the shared queue words
    ([_bottom], the packed [_age] word, the slots of [_elems]); running a
    program interleaves it with the steps of the other threads, which may
    change the shared memory before each access. *)

From Stdlib Require Import ZArith List Bool Lia.
Import ListNotations.
Local Open Scope Z_scope.

(** ** Machine integers *)

(** Conversion to [juint] (unsigned, 32 bits). *)
Definition to_juint (x : Z) : Z := x mod 2 ^ 32.

(** Conversion to [jint] (signed, 32 bits, two's complement). *)
Definition to_jint (x : Z) : Z := (x + 2 ^ 31) mod 2 ^ 32 - 2 ^ 31.

(** Conversion to [jushort] (unsigned, 16 bits). *)
Definition to_jushort (x : Z) : Z := x mod 2 ^ 16.

(** ** TaskQueueSuper: indices and sizes *)

Module TaskQueueSuper.

(** [enum SomeProtectedConstants { Log_n = 14 }] *)
Definition Log_n : Z := 14.

(** [juint n() { return (1 << Log_n); }] *)
Definition n : Z := to_juint (Z.shiftl 1 Log_n).

(** [juint n_mod_mask() { return n() - 1; }] *)
Definition n_mod_mask : Z := to_juint (n - 1).

(** [juint increment_index(juint ind) { return (ind + 1) & n_mod_mask(); }] *)
Definition increment_index (ind : Z) : Z :=
  Z.land (to_juint (ind + 1)) n_mod_mask.

(** [juint decrement_index(juint ind) { return (ind - 1) & n_mod_mask(); }] *)
Definition decrement_index (ind : Z) : Z :=
  Z.land (to_juint (ind - 1)) n_mod_mask.

(** [juint dirty_size(juint bot, juint top)
      { return ((jint)bot - (jint)top) & n_mod_mask(); }]
    The difference is a [jint]; and-ing it with the [juint] mask converts
    it to [juint] first. *)
Definition dirty_size (bot top : Z) : Z :=
  Z.land (to_juint (to_jint (to_jint bot - to_jint top))) n_mod_mask.

(** [juint size(juint bot, juint top)]:
    [if (sz == (n()-1)) return 0; else return sz;] *)
Definition size (bot top : Z) : Z :=
  let sz := dirty_size bot top in
  if sz =? to_juint (n - 1) then 0 else sz.

(** [juint max_elems() { return n() - 2; }] *)
Definition max_elems : Z := to_juint (n - 2).

End TaskQueueSuper.
Import TaskQueueSuper.

(** ** The age word *)

(** [struct Age { jushort _top; jushort _tag; }].  The two 16-bit fields
    fill one 32-bit word, which is read, written and compare-and-swapped as
    a whole. *)
Record Age : Type := mkAge { _top : Z; _tag : Z }.

(** [operator ==(const Age& a1, const Age& a2)]:
    [a1.tag() == a2.tag() && a1.top() == a2.top()]. *)
Definition Age_eqb (a1 a2 : Age) : bool :=
  (_tag a1 =? _tag a2) && (_top a1 =? _top a2).

(** [Age() { _tag = 0; _top = 0; }] *)
Definition Age_init : Age := mkAge 0 0.

(** The age word the description of [pop_global] asks for: [top] advanced
    modulo [n], [tag] incremented (as a 16-bit counter) iff the new [top]
    is 0.  The theorems compare it with the word the code builds. *)
Definition advanced_age (oldAge : Age) : Age :=
  let top' := (_top oldAge + 1) mod n in
  mkAge top' (if top' =? 0 then (_tag oldAge + 1) mod 2 ^ 16 else _tag oldAge).

(** ** Shared memory and programs of atomic accesses *)

Section Queues.

(** The element type of [GenericTaskQueue<E>]. *)
Context {E : Type}.

(** The shared words of one queue: [_bottom], [_age] and the slots reached
    from the [_elems] pointer.  [initialize] allocates the slots [0 .. n-1];
    the map is total so that an access is defined by its index alone. *)
Record TaskQueue : Type := mkTaskQueue {
  _bottom : Z;
  _age : Age;
  _elems : Z -> E
}.

Definition with_bottom (b : Z) (q : TaskQueue) : TaskQueue :=
  mkTaskQueue b (_age q) (_elems q).

Definition with_age (a : Age) (q : TaskQueue) : TaskQueue :=
  mkTaskQueue (_bottom q) a (_elems q).

Definition with_elem (i : Z) (e : E) (q : TaskQueue) : TaskQueue :=
  mkTaskQueue (_bottom q) (_age q) (fun j => if j =? i then e else _elems q j).

(** The heap maps the address of a queue ([GenericTaskQueue<E>*]) to its
    shared words. *)
Definition heap : Type := Z -> TaskQueue.

Definition upd (h : heap) (this : Z) (q : TaskQueue) : heap :=
  fun p => if p =? this then q else h p.

(** A program is a tree of atomic accesses to the shared words of the
    queue at address [this], ending in a result. *)
Inductive prog (R : Type) : Type :=
| Ret (r : R)
| LoadBottom (this : Z) (k : Z -> prog R)
| StoreBottom (this : Z) (b : Z) (k : prog R)
| LoadAge (this : Z) (k : Age -> prog R)
| StoreAge (this : Z) (a : Age) (k : prog R)
| LoadElem (this : Z) (i : Z) (k : E -> prog R)
| StoreElem (this : Z) (i : Z) (e : E) (k : prog R)
| Cmpxchg (this : Z) (exchange_value compare_value : Age) (k : Age -> prog R)
| Fence (k : prog R).

Arguments Ret {R} r.
Arguments LoadBottom {R} this k.
Arguments StoreBottom {R} this b k.
Arguments LoadAge {R} this k.
Arguments StoreAge {R} this a k.
Arguments LoadElem {R} this i k.
Arguments StoreElem {R} this i e k.
Arguments Cmpxchg {R} this exchange_value compare_value k.
Arguments Fence {R} k.

Fixpoint bind {A B : Type} (p : prog A) (f : A -> prog B) : prog B :=
  match p with
  | Ret r => f r
  | LoadBottom this k => LoadBottom this (fun b => bind (k b) f)
  | StoreBottom this b k => StoreBottom this b (bind k f)
  | LoadAge this k => LoadAge this (fun a => bind (k a) f)
  | StoreAge this a k => StoreAge this a (bind k f)
  | LoadElem this i k => LoadElem this i (fun e => bind (k e) f)
  | StoreElem this i e k => StoreElem this i e (bind k f)
  | Cmpxchg this x c k => Cmpxchg this x c (fun a => bind (k a) f)
  | Fence k => Fence (bind k f)
  end.

Notation "x <- p ;; q" := (bind p (fun x => q))
  (at level 61, p at next level, right associativity).
Notation "p ;; q" := (bind p (fun _ => q))
  (at level 61, right associativity).

(** The accesses the queue code performs. *)

(** a read of the volatile [_bottom] *)
Definition load_bottom (this : Z) : prog Z := LoadBottom this Ret.

(** [_bottom = b] *)
Definition store_bottom (this b : Z) : prog unit := StoreBottom this b (Ret tt).

(** [Age get_age()]: one atomic read of the whole word *)
Definition get_age (this : Z) : prog Age := LoadAge this Ret.

(** [void set_age(Age a)]: one atomic write of the whole word *)
Definition set_age (this : Z) (a : Age) : prog unit := StoreAge this a (Ret tt).

(** a read of [_elems[i]] *)
Definition load_elem (this i : Z) : prog E := LoadElem this i Ret.

(** [_elems[i] = e] *)
Definition store_elem (this i : Z) (e : E) : prog unit :=
  StoreElem this i e (Ret tt).

(** [Atomic::cmpxchg(exchange_value, &_age, compare_value)]: returns the
    word found; the word becomes [exchange_value] when it was
    [compare_value]. *)
Definition cmpxchg (this : Z) (exchange_value compare_value : Age) : prog Age :=
  Cmpxchg this exchange_value compare_value Ret.

(** [OrderAccess::fence()] *)
Definition fence : prog unit := Fence (Ret tt).

(** What a thread did, access by access, with the values read or written. *)
Inductive event : Type :=
| EvLoadBottom (this b : Z)
| EvStoreBottom (this b : Z)
| EvLoadAge (this : Z) (a : Age)
| EvStoreAge (this : Z) (a : Age)
| EvLoadElem (this i : Z) (e : E)
| EvStoreElem (this i : Z) (e : E)
| EvCmpxchg (this : Z) (exchange_value compare_value found : Age)
| EvFence.

(** The other threads: [env i] is what they do to the shared memory just
    before the [i]-th access of the running thread. *)
Definition interference : Type := nat -> heap -> heap.

Definition no_interference : interference := fun _ h => h.

(** The running thread owns the queue at [this]: the other threads do not
    write its [_bottom] ("written only by the owner"). *)
Definition owner_of (this : Z) (env : interference) : Prop :=
  forall (i : nat) (h : heap), _bottom (env i h this) = _bottom (h this).

Definition shift (k : nat) (env : interference) : interference :=
  fun i => env (k + i)%nat.

Definition emit {R : Type} (ev : event) (res : R * heap * list event)
  : R * heap * list event :=
  let '(r, h, tr) := res in (r, h, ev :: tr).

(** Running a program against the other threads: the result, the final
    memory and the accesses made, in order.  Memory is sequentially
    consistent, so a fence changes nothing. *)
Fixpoint run {R : Type} (p : prog R) (env : interference) (h : heap)
  : R * heap * list event :=
  match p with
  | Ret r => (r, h, [])
  | LoadBottom this k =>
      let h1 := env 0%nat h in
      let b := _bottom (h1 this) in
      emit (EvLoadBottom this b) (run (k b) (shift 1 env) h1)
  | StoreBottom this b k =>
      let h1 := env 0%nat h in
      emit (EvStoreBottom this b)
           (run k (shift 1 env) (upd h1 this (with_bottom b (h1 this))))
  | LoadAge this k =>
      let h1 := env 0%nat h in
      let a := _age (h1 this) in
      emit (EvLoadAge this a) (run (k a) (shift 1 env) h1)
  | StoreAge this a k =>
      let h1 := env 0%nat h in
      emit (EvStoreAge this a)
           (run k (shift 1 env) (upd h1 this (with_age a (h1 this))))
  | LoadElem this i k =>
      let h1 := env 0%nat h in
      let e := _elems (h1 this) i in
      emit (EvLoadElem this i e) (run (k e) (shift 1 env) h1)
  | StoreElem this i e k =>
      let h1 := env 0%nat h in
      emit (EvStoreElem this i e)
           (run k (shift 1 env) (upd h1 this (with_elem i e (h1 this))))
  | Cmpxchg this x c k =>
      let h1 := env 0%nat h in
      let found := _age (h1 this) in
      emit (EvCmpxchg this x c found)
           (run (k found) (shift 1 env)
                (if Age_eqb found c then upd h1 this (with_age x (h1 this))
                 else h1))
  | Fence k =>
      let h1 := env 0%nat h in
      emit EvFence (run k (shift 1 env) h1)
  end.

(** ** TaskQueueSuper: the accessors that read the shared words *)

(** [jushort get_top() { return get_age().top(); }] *)
Definition get_top (this : Z) : prog Z :=
  a <- get_age this ;; Ret (_top a).

(** [juint size() { return size(_bottom, get_top()); }].  The two reads
    are taken in the order written. *)
Definition queue_size (this : Z) : prog Z :=
  bot <- load_bottom this ;;
  top <- get_top this ;;
  Ret (size bot top).

(** [juint dirty_size() { return dirty_size(_bottom, get_top()); }] *)
Definition queue_dirty_size (this : Z) : prog Z :=
  bot <- load_bottom this ;;
  top <- get_top this ;;
  Ret (dirty_size bot top).

(** ** GenericTaskQueue<E>

    The out-parameter [E& t] belongs to the caller: an operation takes its
    contents and returns them next to the [bool].  The [assert]s are not
    part of a product build and are left out. *)

(** [bool push_slow(E t, juint dirty_n_elems)] *)
Definition push_slow (this : Z) (t : E) (dirty_n_elems : Z) : prog bool :=
  if dirty_n_elems =? to_juint (n - 1) then
    (* Actually means 0, so do the push. *)
    localBot <- load_bottom this ;;
    store_elem this localBot t ;;
    store_bottom this (increment_index localBot) ;;
    Ret true
  else
    Ret false.

(** [bool pop_local_slow(juint localBot, Age oldAge)] *)
Definition pop_local_slow (this : Z) (localBot : Z) (oldAge : Age) : prog bool :=
  let newAge := mkAge (to_jushort localBot) (to_jushort (_tag oldAge + 1)) in
  if localBot =? _top oldAge then
    tempAge <- cmpxchg this newAge oldAge ;;
    if Age_eqb tempAge oldAge then
      (* We win. *)
      Ret true
    else
      set_age this newAge ;;
      Ret false
  else
    set_age this newAge ;;
    Ret false.

(** [bool pop_global(E& t)] *)
Definition pop_global (this : Z) (t : E) : prog (bool * E) :=
  oldAge <- get_age this ;;
  localBot <- load_bottom this ;;
  let n_elems := size localBot (_top oldAge) in
  if n_elems =? 0 then
    Ret (false, t)
  else
    t' <- load_elem this (_top oldAge) ;;
    let newAge := mkAge (to_jushort (increment_index (_top oldAge))) (_tag oldAge) in
    let newAge :=
      if _top newAge =? 0
      then mkAge (_top newAge) (to_jushort (_tag newAge + 1))
      else newAge in
    resAge <- cmpxchg this newAge oldAge ;;
    Ret (Age_eqb resAge oldAge, t').

(** [bool push(E t)], the [#else] branch ([SIMPLE_STACK] is 0) *)
Definition push (this : Z) (t : E) : prog bool :=
  localBot <- load_bottom this ;;
  top <- get_top this ;;
  let dirty_n_elems := dirty_size localBot top in
  if dirty_n_elems <? max_elems then
    store_elem this localBot t ;;
    store_bottom this (increment_index localBot) ;;
    Ret true
  else
    push_slow this t dirty_n_elems.

(** [bool pop_local(E& t)], the [#else] branch ([SIMPLE_STACK] is 0) *)
Definition pop_local (this : Z) (t : E) : prog (bool * E) :=
  localBot <- load_bottom this ;;
  top <- get_top this ;;
  let dirty_n_elems := dirty_size localBot top in
  if dirty_n_elems =? 0 then
    Ret (false, t)
  else
    let localBot := decrement_index localBot in
    store_bottom this localBot ;;
    fence ;;
    t' <- load_elem this localBot ;;
    tp <- get_top this ;;
    if 0 <? size localBot tp then
      Ret (true, t')
    else
      oldAge <- get_age this ;;
      r <- pop_local_slow this localBot oldAge ;;
      Ret (r, t').

(** ** GenericTaskQueueSet<E> *)

(** [int _n; GenericTaskQueue<E>** _queues;] *)
Record GenericTaskQueueSet : Type := mkQueueSet {
  _n : Z;
  _queues : Z -> Z
}.

(** [void register_queue(int i, GenericTaskQueue<E>* q)] *)
Definition register_queue (s : GenericTaskQueueSet) (i q : Z)
  : GenericTaskQueueSet :=
  mkQueueSet (_n s) (fun j => if j =? i then q else _queues s j).

(** [GenericTaskQueue<E>* queue(int i)] *)
Definition queue (s : GenericTaskQueueSet) (i : Z) : Z := _queues s i.

(** [static int randomParkAndMiller(int* seed0)] is declared here and
    defined elsewhere: it is a parameter of the steal policies, taking the
    contents of [*seed0] to the value returned and the new contents. *)
Variable randomParkAndMiller : Z -> Z * Z.

(** [while (cond(k)) k = randomParkAndMiller(seed) % _n;].  [%] on [int]
    truncates towards zero.  [None] when [fuel] draws were not enough. *)
Fixpoint draw_while (n_queues : Z) (fuel : nat) (cond : Z -> bool) (k seed : Z)
  : option (Z * Z) :=
  if cond k then
    match fuel with
    | O => None
    | S fuel' =>
        let '(r, seed') := randomParkAndMiller seed in
        draw_while n_queues fuel' cond (Z.rem r n_queues) seed'
    end
  else Some (k, seed).

(** The policies return the [bool] and the contents of [t], and the new
    contents of [*seed]. *)
Definition stolen : Type := bool * E * Z.

(** [bool steal_1_random(int queue_num, int* seed, E& t)] *)
Definition steal_1_random (fuel : nat) (s : GenericTaskQueueSet)
    (queue_num seed : Z) (t : E) : prog (option stolen) :=
  if 2 <? _n s then
    match draw_while (_n s) fuel (fun k => k =? queue_num) queue_num seed with
    | None => Ret None
    | Some (k, seed') =>
        r <- pop_global (_queues s 2) t ;;
        Ret (Some (r, seed'))
    end
  else if _n s =? 2 then
    (* Just try the other one. *)
    let k := Z.rem (to_jint (queue_num + 1)) 2 in
    r <- pop_global (_queues s k) t ;;
    Ret (Some (r, seed))
  else
    Ret (Some (false, t, seed)).

(** [bool steal_best_of_2(int queue_num, int* seed, E& t)] *)
Definition steal_best_of_2 (fuel : nat) (s : GenericTaskQueueSet)
    (queue_num seed : Z) (t : E) : prog (option stolen) :=
  if 2 <? _n s then
    match draw_while (_n s) fuel (fun k1 => k1 =? queue_num) queue_num seed with
    | None => Ret None
    | Some (k1, seed1) =>
        match draw_while (_n s) fuel
                (fun k2 => (k2 =? queue_num) || (k2 =? k1)) queue_num seed1 with
        | None => Ret None
        | Some (k2, seed2) =>
            (* Sample both and try the larger. *)
            sz1 <- queue_size (_queues s k1) ;;
            sz2 <- queue_size (_queues s k2) ;;
            if sz1 <? sz2 then
              r <- pop_global (_queues s k2) t ;;
              Ret (Some (r, seed2))
            else
              r <- pop_global (_queues s k1) t ;;
              Ret (Some (r, seed2))
        end
    end
  else if _n s =? 2 then
    (* Just try the other one. *)
    let k := Z.rem (to_jint (queue_num + 1)) 2 in
    r <- pop_global (_queues s k) t ;;
    Ret (Some (r, seed))
  else
    Ret (Some (false, t, seed)).

(** The scan of [steal_best_of_all]:
    [for (int k = 0; k < _n; k++) { if (k == queue_num) continue; ... }],
    with [count] iterations left.  [best_k] starts uninitialised. *)
Fixpoint best_of_all_scan (count : nat) (s : GenericTaskQueueSet)
    (queue_num k best_sz : Z) (best_k : option Z) : prog (Z * option Z) :=
  match count with
  | O => Ret (best_sz, best_k)
  | S count' =>
      if k =? queue_num then
        best_of_all_scan count' s queue_num (k + 1) best_sz best_k
      else
        sz <- queue_size (_queues s k) ;;
        let sz := to_jint sz in
        if best_sz <? sz then
          best_of_all_scan count' s queue_num (k + 1) sz (Some k)
        else
          best_of_all_scan count' s queue_num (k + 1) best_sz best_k
  end.

(** [bool steal_best_of_all(int queue_num, int* seed, E& t)].  [best_k] is
    read only when [best_sz > 0], that is after it was assigned. *)
Definition steal_best_of_all (s : GenericTaskQueueSet)
    (queue_num seed : Z) (t : E) : prog (option stolen) :=
  if 2 <? _n s then
    res <- best_of_all_scan (Z.to_nat (_n s)) s queue_num 0 0 None ;;
    let '(best_sz, best_k) := res in
    if 0 <? best_sz then
      match best_k with
      | Some best_k =>
          r <- pop_global (_queues s best_k) t ;;
          Ret (Some (r, seed))
      | None => Ret (Some (false, t, seed))
      end
    else Ret (Some (false, t, seed))
  else if _n s =? 2 then
    (* Just try the other one. *)
    let k := Z.rem (to_jint (queue_num + 1)) 2 in
    r <- pop_global (_queues s k) t ;;
    Ret (Some (r, seed))
  else
    Ret (Some (false, t, seed)).

(** The loop of [steal] with [count] iterations left:
    [if (steal_best_of_2(queue_num, seed, t)) return true;]. *)
Fixpoint steal_loop (count fuel : nat) (s : GenericTaskQueueSet)
    (queue_num seed : Z) (t : E) : prog (option stolen) :=
  match count with
  | O => Ret (Some (false, t, seed))
  | S count' =>
      r <- steal_best_of_2 fuel s queue_num seed t ;;
      match r with
      | None => Ret None
      | Some (true, t', seed') => Ret (Some (true, t', seed'))
      | Some (false, t', seed') => steal_loop count' fuel s queue_num seed' t'
      end
  end.

(** [bool steal(int queue_num, int* seed, E& t)]:
    [for (int i = 0; i < 2 * _n; i++) ...; return false;] *)
Definition steal (fuel : nat) (s : GenericTaskQueueSet)
    (queue_num seed : Z) (t : E) : prog (option stolen) :=
  steal_loop (Z.to_nat (to_jint (2 * _n s))) fuel s queue_num seed t.

(** ** The attempts of [steal], one by one *)

(** The stealing thread between two attempts: its seed word, its [t], the
    other threads' steps still to come, and the shared memory. *)
Record steal_state : Type := mkStealState {
  st_seed : Z;
  st_t : E;
  st_env : interference;
  st_heap : heap
}.

(** One best-of-two attempt from [st]: its [bool] and the state it leaves;
    [None] when a draw ran out of fuel. *)
Definition attempt (fuel : nat) (s : GenericTaskQueueSet) (queue_num : Z)
    (st : steal_state) : option (bool * steal_state) :=
  match run (steal_best_of_2 fuel s queue_num (st_seed st) (st_t st))
            (st_env st) (st_heap st) with
  | (Some (b, t', seed'), h', tr) =>
      Some (b, mkStealState seed' t' (shift (length tr) (st_env st)) h')
  | (None, _, _) => None
  end.

(** [j] attempts in a row from [st], each returning [false]. *)
Fixpoint failed_attempts (j fuel : nat) (s : GenericTaskQueueSet)
    (queue_num : Z) (st : steal_state) : option steal_state :=
  match j with
  | O => Some st
  | S j' =>
      match attempt fuel s queue_num st with
      | Some (false, st') => failed_attempts j' fuel s queue_num st'
      | _ => None
      end
  end.

End Queues.

Arguments TaskQueue E : clear implicits.
Arguments heap E : clear implicits.
Arguments prog E R : clear implicits.
Arguments event E : clear implicits.
Arguments interference E : clear implicits.
Arguments stolen E : clear implicits.
Arguments steal_state E : clear implicits.
Arguments Ret {E R} r.
Arguments LoadBottom {E R} this k.
Arguments StoreBottom {E R} this b k.
Arguments LoadAge {E R} this k.
Arguments StoreAge {E R} this a k.
Arguments LoadElem {E R} this i k.
Arguments StoreElem {E R} this i e k.
Arguments Cmpxchg {E R} this exchange_value compare_value k.
Arguments Fence {E R} k.

Notation "x <- p ;; q" := (bind p (fun x => q))
  (at level 61, p at next level, right associativity).
Notation "p ;; q" := (bind p (fun _ => q))
  (at level 61, right associativity).

(** Modelled from the spec: the body of [randomParkAndMiller], which is
    defined outside this header.  The spec gives the Park-Miller step
    [seed = (seed * 16807) mod (2^31 - 1)] on the caller's seed word; the
    value returned is the new seed. *)
Definition park_miller (seed : Z) : Z * Z :=
  let seed' := (seed * 16807) mod (2 ^ 31 - 1) in
  (seed', seed').
(** ** Concrete memories, for running the operations *)

(** A queue as [TaskQueueSuper()] leaves it, every slot holding [e]. *)
Definition fresh_queue {E : Type} (e : E) : TaskQueue E :=
  mkTaskQueue 0 Age_init (fun _ => e).

(** A memory of fresh queues of integers. *)
Definition fresh_heap : heap Z := fun _ => fresh_queue 0.

(** A set of [n_queues] queues, queue [i] at address [i]. *)
Definition queue_set (n_queues : Z) : GenericTaskQueueSet :=
  mkQueueSet n_queues (fun i => i).

(** ** A queue at rest, and two threads step by step *)

Section Reading.

Context {E : Type}.

(** The fields are within the ranges the code keeps them in: [_bottom] and
    [top] are indices of [_elems], [tag] is a [jushort]. *)
Definition well_formed (q : TaskQueue E) : Prop :=
  0 <= _bottom q < n /\
  0 <= _top (_age q) < n /\
  0 <= _tag (_age q) < 2 ^ 16.

(** The queue holds the elements of [l], youngest first: the slots below
    [_bottom], going down modulo [n], as many as the dirty size says. *)
Definition holds (q : TaskQueue E) (l : list E) : Prop :=
  well_formed q /\
  Z.of_nat (length l) <= n - 2 /\
  dirty_size (_bottom q) (_top (_age q)) = Z.of_nat (length l) /\
  forall (i : nat) (e : E),
    nth_error l i = Some e ->
    _elems q ((_bottom q - 1 - Z.of_nat i) mod n) = e.

(** The other threads are thieves of the queue at [this]: they write
    neither its [_bottom] nor its slots. *)
Definition thieves_only (this : Z) (env : interference E) : Prop :=
  forall (i : nat) (h : heap E),
    _bottom (env i h this) = _bottom (h this) /\
    _elems (env i h this) = _elems (h this).

(** One access of a program on the shared memory, as [run] makes it;
    [None] when the program has returned. *)
Definition step {R : Type} (p : prog E R) (h : heap E)
  : option (prog E R * heap E) :=
  match p with
  | Ret _ => None
  | LoadBottom this k => Some (k (_bottom (h this)), h)
  | StoreBottom this b k => Some (k, upd h this (with_bottom b (h this)))
  | LoadAge this k => Some (k (_age (h this)), h)
  | StoreAge this a k => Some (k, upd h this (with_age a (h this)))
  | LoadElem this i k => Some (k (_elems (h this) i), h)
  | StoreElem this i e k => Some (k, upd h this (with_elem i e (h this)))
  | Cmpxchg this x c k =>
      Some (k (_age (h this)),
            if Age_eqb (_age (h this)) c
            then upd h this (with_age x (h this)) else h)
  | Fence k => Some (k, h)
  end.

(** Two threads on one memory: the schedule says whose access comes next
    ([true] for the first thread); the turn of a thread that has returned
    is skipped. *)
Fixpoint interleave {A B : Type} (sched : list bool)
    (p1 : prog E A) (p2 : prog E B) (h : heap E)
  : prog E A * prog E B * heap E :=
  match sched with
  | [] => (p1, p2, h)
  | true :: sched' =>
      match step p1 h with
      | Some (p1', h') => interleave sched' p1' p2 h'
      | None => interleave sched' p1 p2 h
      end
  | false :: sched' =>
      match step p2 h with
      | Some (p2', h') => interleave sched' p1 p2' h'
      | None => interleave sched' p1 p2 h
      end
  end.

(** Client loops, to state how the operations compose: push the elements
    of [l] in order; call [pop_local], or [pop_global], [k] times and
    collect what the calls return. *)
Fixpoint push_all (this : Z) (l : list E) : prog E bool :=
  match l with
  | [] => Ret true
  | t :: l' =>
      b <- push this t ;;
      b' <- push_all this l' ;;
      Ret (b && b')
  end.

Fixpoint pop_local_n (this : Z) (k : nat) (t : E) : prog E (list (bool * E)) :=
  match k with
  | O => Ret []
  | S k' =>
      r <- pop_local this t ;;
      rs <- pop_local_n this k' (snd r) ;;
      Ret (r :: rs)
  end.

Fixpoint pop_global_n (this : Z) (k : nat) (t : E) : prog E (list (bool * E)) :=
  match k with
  | O => Ret []
  | S k' =>
      r <- pop_global this t ;;
      rs <- pop_global_n this k' (snd r) ;;
      Ret (r :: rs)
  end.

(** The size [size()] reports for queue [j] of the set in the memory [h]. *)
Definition size_in (s : GenericTaskQueueSet) (h : heap E) (j : Z) : Z :=
  size (_bottom (h (_queues s j))) (_top (_age (h (_queues s j)))).

End Reading.

(** A memory of queues with [_bottom = b] and [top = 0], slot [j] holding
    the integer [j]: each holds [b - 1, ..., 1, 0], youngest first. *)
Definition counting_heap (b : Z) : heap Z :=
  fun _ => mkTaskQueue b Age_init (fun j => j).

(** A schedule that alternates the two threads at first. *)
Definition race_schedule : list bool :=
  [true; false; true; false; true; true; false; false;
   true; true; true; true; true; true].

(** ** Arithmetic of the index operations *)

Lemma n_value : n = 2 ^ 14.
Proof. reflexivity. Qed.

Lemma n_mod_mask_ones : n_mod_mask = Z.ones 14.
Proof. reflexivity. Qed.

Lemma mask_mod (x : Z) : Z.land x n_mod_mask = x mod n.
Proof.
  rewrite n_mod_mask_ones, n_value.
  apply Z.land_ones. lia.
Qed.

Lemma juint_mod_n (x : Z) : to_juint x mod n = x mod n.
Proof.
  unfold to_juint. rewrite n_value.
  apply Z.mod_mod_divide.
  exists (2 ^ 18). reflexivity.
Qed.

Lemma jint_mod_n (x : Z) : to_jint x mod n = x mod n.
Proof.
  unfold to_jint. rewrite n_value.
  rewrite <- Zminus_mod_idemp_l.
  rewrite Z.mod_mod_divide by (exists (2 ^ 18); reflexivity).
  rewrite Zminus_mod_idemp_l.
  replace (x + 2 ^ 31 - 2 ^ 31) with x by lia.
  reflexivity.
Qed.

Lemma increment_index_mod (ind : Z) : increment_index ind = (ind + 1) mod n.
Proof. unfold increment_index. now rewrite mask_mod, juint_mod_n. Qed.

Lemma decrement_index_mod (ind : Z) : decrement_index ind = (ind - 1) mod n.
Proof. unfold decrement_index. now rewrite mask_mod, juint_mod_n. Qed.

Lemma dirty_size_mod (bot top : Z) : dirty_size bot top = (bot - top) mod n.
Proof.
  unfold dirty_size.
  rewrite mask_mod, juint_mod_n, jint_mod_n.
  rewrite Zminus_mod, !jint_mod_n, <- Zminus_mod.
  reflexivity.
Qed.

Lemma dirty_size_range (bot top : Z) : 0 <= dirty_size bot top <= n - 1.
Proof.
  rewrite dirty_size_mod.
  assert (0 <= (bot - top) mod n < n) by (apply Z.mod_pos_bound; reflexivity).
  lia.
Qed.

Lemma size_cases (bot top : Z) :
  size bot top = if dirty_size bot top =? n - 1 then 0 else dirty_size bot top.
Proof. reflexivity. Qed.

(** C4: [size(bot, top)] is [(bot - top) mod n] with the value [n - 1]
    mapped to [0]; hence [size] lies in [[0, n - 2]] and [dirty_size] in
    [[0, n - 1]]. *)
Theorem size_is_mod_with_wrap_mapped_to_zero (bot top : Z) :
  dirty_size bot top = (bot - top) mod n /\
  size bot top = (if (bot - top) mod n =? n - 1 then 0 else (bot - top) mod n) /\
  0 <= size bot top <= n - 2 /\
  0 <= dirty_size bot top <= n - 1.
Proof.
  pose proof (dirty_size_range bot top) as Hr.
  pose proof (dirty_size_mod bot top) as Hm.
  assert (Hn : n = 16384) by reflexivity.
  rewrite size_cases, Hm in *.
  repeat split; try lia;
    destruct (Z.eqb_spec ((bot - top) mod n) (n - 1)); lia.
Qed.

Lemma jushort_increment_index (ind : Z) :
  to_jushort (increment_index ind) = (ind + 1) mod n.
Proof.
  rewrite increment_index_mod. unfold to_jushort.
  assert (0 <= (ind + 1) mod n < n) by (apply Z.mod_pos_bound; reflexivity).
  assert (Hn : n = 16384) by reflexivity.
  apply Z.mod_small. lia.
Qed.

(** The word [pop_global] builds is the advanced age. *)
Lemma built_age_is_advanced_age (oldAge : Age) :
  (let newAge := mkAge (to_jushort (increment_index (_top oldAge))) (_tag oldAge) in
   if _top newAge =? 0
   then mkAge (_top newAge) (to_jushort (_tag newAge + 1))
   else newAge) = advanced_age oldAge.
Proof.
  cbn zeta. cbn [_top _tag].
  rewrite jushort_increment_index. unfold advanced_age, to_jushort. cbn zeta.
  destruct ((_top oldAge + 1) mod n =? 0); reflexivity.
Qed.

(** ** Running programs *)

Section Runs.

Context {E : Type}.

Ltac run_bind_step env f :=
  match goal with
  | |- context [run ?p (shift 1 env) ?h0] =>
      let a := fresh "a" in
      let h1 := fresh "h" in
      let tr1 := fresh "tr" in
      destruct (run p (shift 1 env) h0) as [[a h1] tr1];
      cbn [emit length];
      change (shift (length tr1) (shift 1 env)) with (shift (S (length tr1)) env);
      destruct (run (f a) (shift (S (length tr1)) env) h1) as [[? ?] ?];
      reflexivity
  end.

(** The run of [p ;; f] is the run of [p] followed by the run of [f] on
    its result, against the rest of the other threads' steps. *)
Lemma run_bind {A B : Type} (p : prog E A) (f : A -> prog E B) :
  forall (env : interference E) (h : heap E),
    run (bind p f) env h =
    let '(a, h1, tr1) := run p env h in
    let '(b, h2, tr2) := run (f a) (shift (length tr1) env) h1 in
    (b, h2, tr1 ++ tr2).
Proof.
  induction p as [r | this k IH | this b k IH | this k IH | this a k IH
                 | this i k IH | this i e k IH | this x c k IH | k IH];
    intros env h; cbn [bind run].
  - change (shift (length (@nil (event E))) env) with env.
    destruct (run (f r) env h) as [[b h2] tr2]. reflexivity.
  - rewrite IH. run_bind_step env f.
  - rewrite IH. run_bind_step env f.
  - rewrite IH. run_bind_step env f.
  - rewrite IH. run_bind_step env f.
  - rewrite IH. run_bind_step env f.
  - rewrite IH. run_bind_step env f.
  - rewrite IH. run_bind_step env f.
  - rewrite IH. run_bind_step env f.
Qed.

End Runs.

(** ** The queue operations *)

Section QueueOperations.

Context {E : Type}.

(** The three runs of [pop_global]: empty, won, lost. *)
Lemma run_pop_global (this : Z) (t : E) (env : interference E) (h : heap E) :
  let h1 := env 0%nat h in
  let oldAge := _age (h1 this) in
  let h2 := env 1%nat h1 in
  let localBot := _bottom (h2 this) in
  let h3 := env 2%nat h2 in
  let elem := _elems (h3 this) (_top oldAge) in
  let h4 := env 3%nat h3 in
  let found := _age (h4 this) in
  let newAge := advanced_age oldAge in
  run (pop_global this t) env h =
  if size localBot (_top oldAge) =? 0 then
    ((false, t), h2,
     [EvLoadAge this oldAge; EvLoadBottom this localBot])
  else if Age_eqb found oldAge then
    ((true, elem), upd h4 this (with_age newAge (h4 this)),
     [EvLoadAge this oldAge; EvLoadBottom this localBot;
      EvLoadElem this (_top oldAge) elem;
      EvCmpxchg this newAge oldAge found])
  else
    ((false, elem), h4,
     [EvLoadAge this oldAge; EvLoadBottom this localBot;
      EvLoadElem this (_top oldAge) elem;
      EvCmpxchg this newAge oldAge found]).
Proof.
  intros h1 oldAge h2 localBot h3 elem h4 found newAge.
  unfold pop_global, get_age, load_bottom, load_elem, cmpxchg.
  cbn [bind run].
  fold h1. fold oldAge.
  change (shift 1 env 0%nat h1) with h2. fold localBot.
  destruct (size localBot (_top oldAge) =? 0) eqn:Hsz.
  - reflexivity.
  - cbn [bind run].
    change (shift 1 (shift 1 env) 0%nat h2) with h3. fold elem.
    change (shift 1 (shift 1 (shift 1 env)) 0%nat h3) with h4. fold found.
    rewrite built_age_is_advanced_age. fold newAge.
    destruct (Age_eqb found oldAge); reflexivity.
Qed.

(** C1: [pop_global] reads the age word, then [_bottom]; when
    [size(bottom, oldAge.top)] is 0 it returns false; otherwise it loads
    [_elems[oldAge.top]] into [t], then makes one compare-and-swap of the
    age word from [oldAge] to the age with [top = (oldAge.top + 1) mod n]
    and [tag] incremented iff that new top is 0, and returns true iff the
    word found was [oldAge]. *)
Theorem pop_global_spec (this : Z) (t : E) (env : interference E) (h : heap E) :
  let h1 := env 0%nat h in
  let oldAge := _age (h1 this) in
  let h2 := env 1%nat h1 in
  let localBot := _bottom (h2 this) in
  let n_elems := size localBot (_top oldAge) in
  let h3 := env 2%nat h2 in
  let elem := _elems (h3 this) (_top oldAge) in
  let h4 := env 3%nat h3 in
  let found := _age (h4 this) in
  let top' := (_top oldAge + 1) mod n in
  let newAge :=
    mkAge top' (if top' =? 0 then (_tag oldAge + 1) mod 2 ^ 16 else _tag oldAge) in
  run (pop_global this t) env h =
  if n_elems =? 0 then
    ((false, t), h2,
     [EvLoadAge this oldAge; EvLoadBottom this localBot])
  else
    ((Age_eqb found oldAge, elem),
     (if Age_eqb found oldAge then upd h4 this (with_age newAge (h4 this)) else h4),
     [EvLoadAge this oldAge; EvLoadBottom this localBot;
      EvLoadElem this (_top oldAge) elem;
      EvCmpxchg this newAge oldAge found]).
Proof.
  intros h1 oldAge h2 localBot n_elems h3 elem h4 found top' newAge.
  rewrite run_pop_global.
  fold h1. fold oldAge. fold h2. fold localBot. fold n_elems.
  fold h3. fold elem. fold h4. fold found.
  change (advanced_age oldAge) with newAge.
  destruct (n_elems =? 0); [reflexivity |].
  destruct (Age_eqb found oldAge); reflexivity.
Qed.

(** C10: [pop_global] loads [_elems[oldAge.top]] into [t] before its
    compare-and-swap: the trace has the element load just before the
    [cmpxchg], and whenever the observed size is not 0 the contents of [t]
    on return are the element loaded, whether the [bool] is true or false;
    when the observed size is 0 the call returns false with [t] as it was
    and loads no element. *)
Theorem pop_global_out_parameter (this : Z) (t : E)
    (env : interference E) (h : heap E) :
  let h1 := env 0%nat h in
  let oldAge := _age (h1 this) in
  let h2 := env 1%nat h1 in
  let localBot := _bottom (h2 this) in
  let h3 := env 2%nat h2 in
  let elem := _elems (h3 this) (_top oldAge) in
  let found := _age (env 3%nat h3 this) in
  let res := run (pop_global this t) env h in
  fst (fst res) =
    (if size localBot (_top oldAge) =? 0 then (false, t)
     else if Age_eqb found oldAge then (true, elem) else (false, elem)) /\
  snd res =
    (if size localBot (_top oldAge) =? 0
     then [EvLoadAge this oldAge; EvLoadBottom this localBot]
     else [EvLoadAge this oldAge; EvLoadBottom this localBot;
           EvLoadElem this (_top oldAge) elem;
           EvCmpxchg this (advanced_age oldAge) oldAge found]).
Proof.
  intros h1 oldAge h2 localBot h3 elem found res.
  unfold res. rewrite run_pop_global.
  fold h1. fold oldAge. fold h2. fold localBot. fold h3. fold elem.
  change (_age (env 3%nat h3 this)) with found.
  destruct (size localBot (_top oldAge) =? 0).
  - split; reflexivity.
  - destruct (Age_eqb found oldAge); split; reflexivity.
Qed.

(** C2: with [dirty] the dirty size [(bottom - top) mod n] that [push]
    computes: when [dirty = n - 1] the size is 0 and [push] stores the
    element at [_elems[_bottom]], advances [_bottom] and returns true; when
    [dirty = n - 2] it returns false and writes nothing; below [n - 2] it
    pushes on the fast path.  So [push] returns false exactly when
    [dirty = n - 2]. *)
Theorem push_spec (this : Z) (t : E) (env : interference E) (h : heap E) :
  let h1 := env 0%nat h in
  let localBot := _bottom (h1 this) in
  let h2 := env 1%nat h1 in
  let age := _age (h2 this) in
  let dirty := (localBot - _top age) mod n in
  let h3 := env 2%nat h2 in
  (* fast path *)
  let f3 := upd h3 this (with_elem localBot t (h3 this)) in
  let f4 := env 3%nat f3 in
  let f5 := upd f4 this (with_bottom ((localBot + 1) mod n) (f4 this)) in
  (* slow path: [_bottom] is read again *)
  let bot := _bottom (h3 this) in
  let s4 := env 3%nat h3 in
  let s4' := upd s4 this (with_elem bot t (s4 this)) in
  let s5 := env 4%nat s4' in
  let s5' := upd s5 this (with_bottom ((bot + 1) mod n) (s5 this)) in
  dirty_size localBot (_top age) = dirty /\
  size localBot (_top age) = (if dirty =? n - 1 then 0 else dirty) /\
  fst (fst (run (push this t) env h)) = negb (dirty =? n - 2) /\
  run (push this t) env h =
  if dirty =? n - 1 then
    (true, s5',
     [EvLoadBottom this localBot; EvLoadAge this age; EvLoadBottom this bot;
      EvStoreElem this bot t; EvStoreBottom this ((bot + 1) mod n)])
  else if dirty =? n - 2 then
    (false, h2, [EvLoadBottom this localBot; EvLoadAge this age])
  else
    (true, f5,
     [EvLoadBottom this localBot; EvLoadAge this age;
      EvStoreElem this localBot t;
      EvStoreBottom this ((localBot + 1) mod n)]).
Proof.
  intros h1 localBot h2 age dirty h3 f3 f4 f5 bot s4 s4' s5 s5'.
  pose proof (dirty_size_mod localBot (_top age)) as Hd. fold dirty in Hd.
  assert (Hrange : 0 <= dirty < n) by (apply Z.mod_pos_bound; reflexivity).
  assert (Hn : n = 16384) by reflexivity.
  assert (Hmax : max_elems = n - 2) by reflexivity.
  assert (Hm1 : to_juint (n - 1) = n - 1) by reflexivity.
  assert (Hrun : run (push this t) env h =
    if dirty =? n - 1 then
      (true, s5',
       [EvLoadBottom this localBot; EvLoadAge this age; EvLoadBottom this bot;
        EvStoreElem this bot t; EvStoreBottom this ((bot + 1) mod n)])
    else if dirty =? n - 2 then
      (false, h2, [EvLoadBottom this localBot; EvLoadAge this age])
    else
      (true, f5,
       [EvLoadBottom this localBot; EvLoadAge this age;
        EvStoreElem this localBot t;
        EvStoreBottom this ((localBot + 1) mod n)])).
  { unfold push, get_top, get_age, load_bottom.
    cbn [bind run].
    fold h1. fold localBot.
    change (shift 1 env 0%nat h1) with h2. fold age.
    rewrite Hd, Hmax.
    destruct (Z.ltb_spec dirty (n - 2)) as [Hlt | Hge].
    - destruct (Z.eqb_spec dirty (n - 1)); [lia |].
      destruct (Z.eqb_spec dirty (n - 2)); [lia |].
      unfold store_elem, store_bottom. cbn [bind run emit].
      rewrite increment_index_mod. reflexivity.
    - unfold push_slow. rewrite Hm1.
      destruct (Z.eqb_spec dirty (n - 1)) as [He | Hne].
      + unfold load_bottom, store_elem, store_bottom. cbn [bind run emit].
        rewrite increment_index_mod. reflexivity.
      + destruct (Z.eqb_spec dirty (n - 2)); [| lia].
        reflexivity. }
  split; [exact Hd |].
  split; [rewrite size_cases, Hd; reflexivity |].
  split; [| exact Hrun].
  rewrite Hrun.
  destruct (Z.eqb_spec dirty (n - 1)); destruct (Z.eqb_spec dirty (n - 2));
    try reflexivity; lia.
Qed.

(** C9: when the dirty size that [pop_local] computes from [_bottom] and
    [top] is 0, it returns false with [t] as it was; its only accesses are
    the two loads, so it writes neither [_bottom], nor the age word, nor a
    slot of [_elems]: the memory it leaves is the one the other threads
    made. *)
Theorem pop_local_empty (this : Z) (t : E) (env : interference E) (h : heap E) :
  let h1 := env 0%nat h in
  let localBot := _bottom (h1 this) in
  let h2 := env 1%nat h1 in
  let age := _age (h2 this) in
  dirty_size localBot (_top age) = 0 ->
  run (pop_local this t) env h =
  ((false, t), h2, [EvLoadBottom this localBot; EvLoadAge this age]).
Proof.
  intros h1 localBot h2 age Hd.
  unfold pop_local, get_top, get_age, load_bottom.
  cbn [bind run].
  fold h1. fold localBot.
  change (shift 1 env 0%nat h1) with h2. fold age.
  rewrite Hd. reflexivity.
Qed.

(** The three runs of [pop_local_slow]: compare-and-swap won, lost, not
    tried. *)
Lemma run_pop_local_slow (this localBot : Z) (oldAge : Age)
    (env : interference E) (h : heap E) :
  let newAge := mkAge (to_jushort localBot) (to_jushort (_tag oldAge + 1)) in
  let h1 := env 0%nat h in
  let found := _age (h1 this) in
  let h2 := env 1%nat h1 in
  run (pop_local_slow this localBot oldAge) env h =
  if localBot =? _top oldAge then
    if Age_eqb found oldAge then
      (true, upd h1 this (with_age newAge (h1 this)),
       [EvCmpxchg this newAge oldAge found])
    else
      (false, upd h2 this (with_age newAge (h2 this)),
       [EvCmpxchg this newAge oldAge found; EvStoreAge this newAge])
  else
    (false, upd h1 this (with_age newAge (h1 this)),
     [EvStoreAge this newAge]).
Proof.
  intros newAge h1 found h2.
  unfold pop_local_slow, cmpxchg, set_age. fold newAge.
  destruct (localBot =? _top oldAge).
  - cbn [bind run]. fold h1. fold found.
    destruct (Age_eqb found oldAge); reflexivity.
  - reflexivity.
Qed.

(** Whatever the run, the owner's [pop_local_slow] leaves the new age in
    the age word and [_bottom] as it was. *)
Lemma pop_local_slow_final (this localBot : Z) (oldAge : Age)
    (env : interference E) (h : heap E) :
  owner_of this env ->
  let h' := snd (fst (run (pop_local_slow this localBot oldAge) env h)) in
  _age (h' this) = mkAge (to_jushort localBot) (to_jushort (_tag oldAge + 1)) /\
  _bottom (h' this) = _bottom (h this).
Proof.
  intros Hown h'. unfold h'. rewrite run_pop_local_slow.
  destruct (localBot =? _top oldAge);
    [destruct (Age_eqb (_age (env 0%nat h this)) oldAge) |];
    cbn [fst snd]; unfold upd; rewrite Z.eqb_refl;
    cbn [with_age _age _bottom]; rewrite ?Hown; split; reflexivity.
Qed.

(** Equal [_bottom] and [top], in range: the canonical empty queue. *)
Lemma canonical_empty (b : Z) :
  size b b = 0 /\ dirty_size b b <> n - 1.
Proof.
  rewrite size_cases, dirty_size_mod, Z.sub_diag.
  change (0 mod n) with 0. split; [reflexivity | discriminate].
Qed.

(** C3: [pop_local_slow(localBot, oldAge)] builds the age with
    [top = localBot] and [tag = oldAge.tag + 1]; it tries the
    compare-and-swap from [oldAge] only when [oldAge.top == localBot] and
    returns true iff that succeeds; otherwise it stores the new age and
    returns false.  Called by the owner with [localBot == _bottom], it
    leaves [_bottom == age.top]: size 0, dirty size not [n - 1]. *)
Theorem pop_local_slow_spec (this localBot : Z) (oldAge : Age)
    (env : interference E) (h : heap E) :
  let newAge := mkAge localBot ((_tag oldAge + 1) mod 2 ^ 16) in
  let h1 := env 0%nat h in
  let found := _age (h1 this) in
  let tried := localBot =? _top oldAge in
  let won := tried && Age_eqb found oldAge in
  let res := run (pop_local_slow this localBot oldAge) env h in
  let h' := snd (fst res) in
  0 <= localBot < n ->
  _bottom (h this) = localBot ->
  owner_of this env ->
  fst (fst res) = won /\
  snd res =
    (if tried then
       if Age_eqb found oldAge
       then [EvCmpxchg this newAge oldAge found]
       else [EvCmpxchg this newAge oldAge found; EvStoreAge this newAge]
     else [EvStoreAge this newAge]) /\
  _age (h' this) = newAge /\
  _bottom (h' this) = _top (_age (h' this)) /\
  size (_bottom (h' this)) (_top (_age (h' this))) = 0 /\
  dirty_size (_bottom (h' this)) (_top (_age (h' this))) <> n - 1.
Proof.
  intros newAge h1 found tried won res h' Hrange Hbot Hown.
  assert (Hn : n = 16384) by reflexivity.
  assert (Hshort : to_jushort localBot = localBot).
  { unfold to_jushort. apply Z.mod_small. lia. }
  destruct (pop_local_slow_final this localBot oldAge env h Hown)
    as [Hage Hbottom].
  fold res in Hage, Hbottom. fold h' in Hage, Hbottom.
  rewrite Hshort in Hage. rewrite Hbot in Hbottom.
  change (mkAge localBot (to_jushort (_tag oldAge + 1))) with newAge in Hage.
  assert (Hres : fst (fst res) = won /\
    snd res =
      (if tried then
         if Age_eqb found oldAge
         then [EvCmpxchg this newAge oldAge found]
         else [EvCmpxchg this newAge oldAge found; EvStoreAge this newAge]
       else [EvStoreAge this newAge])).
  { unfold res, won. rewrite run_pop_local_slow, Hshort.
    fold h1. fold found. fold tried.
    change (mkAge localBot (to_jushort (_tag oldAge + 1))) with newAge.
    destruct tried; [destruct (Age_eqb found oldAge) |]; split; reflexivity. }
  destruct Hres as [Hr Htr].
  rewrite Hage, Hbottom. cbn [_top newAge].
  destruct (canonical_empty localBot) as [Hsize Hdirty].
  repeat split; try assumption; reflexivity.
Qed.

(** The call of [pop_local_slow] in [pop_local]: when the owner's
    [pop_local] finds a non-empty queue and, after publishing the
    decremented [_bottom], a size of 0, it calls [pop_local_slow] with
    [localBot] the current [_bottom], in range; so the queue it leaves has
    [_bottom == age.top]. *)
Lemma pop_local_slow_path_canonical (this : Z) (t : E)
    (env : interference E) (h : heap E) :
  let h1 := env 0%nat h in
  let h2 := env 1%nat h1 in
  let localBot := decrement_index (_bottom (h1 this)) in
  let h3 := env 2%nat h2 in
  let h3' := upd h3 this (with_bottom localBot (h3 this)) in
  let h6 := env 5%nat (env 4%nat (env 3%nat h3')) in
  let h' := snd (fst (run (pop_local this t) env h)) in
  owner_of this env ->
  dirty_size (_bottom (h1 this)) (_top (_age (h2 this))) <> 0 ->
  size localBot (_top (_age (h6 this))) = 0 ->
  _bottom (h' this) = localBot /\
  _bottom (h' this) = _top (_age (h' this)) /\
  size (_bottom (h' this)) (_top (_age (h' this))) = 0.
Proof.
  intros h1 h2 localBot h3 h3' h6 h' Hown Hd Hsz.
  assert (Hrange : 0 <= localBot < n).
  { unfold localBot. rewrite decrement_index_mod.
    apply Z.mod_pos_bound. reflexivity. }
  assert (Hb3 : _bottom (h3' this) = localBot).
  { unfold h3', upd. now rewrite Z.eqb_refl. }
  unfold h'. unfold pop_local, get_top, get_age, load_bottom, store_bottom,
    fence, load_elem.
  cbn [bind run]. cbv [shift Nat.add].
  fold h1. fold h2.
  destruct (Z.eqb_spec (dirty_size (_bottom (h1 this)) (_top (_age (h2 this)))) 0)
    as [He | _]; [contradiction |].
  cbn [bind run]. cbv [shift Nat.add].
  fold localBot. fold h3. fold h3'. fold h6.
  rewrite Hsz. cbn [Z.ltb Z.compare].
  cbn [bind run]. cbv [shift Nat.add].
  rewrite run_bind.
  set (env7 := fun i : nat => env (S (S (S (S (S (S (S i)))))))).
  set (h7 := env 6%nat h6).
  assert (Hb7 : _bottom (h7 this) = localBot).
  { unfold h7, h6. now rewrite !Hown. }
  assert (Hown7 : owner_of this env7) by (intros i g; apply Hown).
  destruct (pop_local_slow_final this localBot (_age (h7 this)) env7 h7 Hown7)
    as [Hage Hbottom].
  destruct (run (pop_local_slow this localBot (_age (h7 this))) env7 h7)
    as [[r g] tr].
  cbn [fst snd run emit] in *.
  rewrite Hage, Hbottom, Hb7. cbn [_top].
  assert (Hshort : to_jushort localBot = localBot).
  { unfold to_jushort. apply Z.mod_small.
    assert (Hn : n = 16384) by reflexivity. lia. }
  rewrite Hshort.
  destruct (canonical_empty localBot) as [Hsize _].
  repeat split; try assumption; reflexivity.
Qed.

End QueueOperations.

(** ** The steal policies *)

Section Stealing.

Context {E : Type}.
Variable randomParkAndMiller : Z -> Z * Z.

(** A draw loop ends on a value that fails its condition. *)
Lemma draw_while_exit (nq : Z) (cond : Z -> bool) :
  forall (fuel : nat) (k seed k' seed' : Z),
    draw_while randomParkAndMiller nq fuel cond k seed = Some (k', seed') ->
    cond k' = false.
Proof.
  induction fuel as [| fuel IH]; intros k seed k' seed' H; cbn [draw_while] in H.
  - destruct (cond k) eqn:Hc; [discriminate |].
    injection H as <- _. exact Hc.
  - destruct (cond k) eqn:Hc.
    + destruct (randomParkAndMiller seed) as [r seed1].
      eapply IH. exact H.
    + injection H as <- _. exact Hc.
Qed.

(** More fuel does not change the result of a draw loop that ended. *)
Lemma draw_while_mono (nq : Z) (cond : Z -> bool) :
  forall (m fuel : nat) (k seed : Z) (res : Z * Z),
    (m <= fuel)%nat ->
    draw_while randomParkAndMiller nq m cond k seed = Some res ->
    draw_while randomParkAndMiller nq fuel cond k seed = Some res.
Proof.
  induction m as [| m IH]; intros fuel k seed res Hle H; cbn [draw_while] in H.
  - destruct (cond k) eqn:Hc; [discriminate |].
    destruct fuel; cbn [draw_while]; now rewrite Hc.
  - destruct fuel as [| fuel]; [lia |].
    cbn [draw_while].
    destruct (cond k) eqn:Hc; [| exact H].
    destruct (randomParkAndMiller seed) as [r seed1].
    apply IH; [lia | exact H].
Qed.

(** In a set of more than two queues [steal_1_random] draws [k] and then
    calls [pop_global] on [_queues[2]], whatever [k] is. *)
Lemma steal_1_random_pops_queue_2 (fuel : nat) (s : GenericTaskQueueSet)
    (queue_num seed : Z) (t : E) (k seed' : Z) :
  2 < _n s ->
  draw_while randomParkAndMiller (_n s) fuel (fun k => k =? queue_num)
             queue_num seed = Some (k, seed') ->
  steal_1_random randomParkAndMiller fuel s queue_num seed t =
  (r <- pop_global (_queues s 2) t ;; Ret (Some (r, seed'))).
Proof.
  intros Hn Hdraw. unfold steal_1_random.
  destruct (Z.ltb_spec 2 (_n s)); [| lia].
  rewrite Hdraw. reflexivity.
Qed.

(** C7: in a set of more than two queues, [steal_best_of_2] draws [k1]
    different from [queue_num], then [k2] different from [queue_num] and
    from [k1]; it samples [size()] of queue [k1], then of queue [k2], and
    calls [pop_global] on queue [k2] when its sampled size is the larger
    and on queue [k1] otherwise (so also on a tie).  With the draws ending
    within [m1] and [m2] calls of the generator, any fuel from there on
    gives this result. *)
Theorem steal_best_of_2_victim (s : GenericTaskQueueSet)
    (queue_num seed : Z) (t : E) (m1 m2 : nat) (k1 seed1 k2 seed2 : Z) :
  2 < _n s ->
  draw_while randomParkAndMiller (_n s) m1 (fun k1 => k1 =? queue_num)
             queue_num seed = Some (k1, seed1) ->
  draw_while randomParkAndMiller (_n s) m2
             (fun k2 => (k2 =? queue_num) || (k2 =? k1))
             queue_num seed1 = Some (k2, seed2) ->
  k1 <> queue_num /\ k2 <> queue_num /\ k2 <> k1 /\
  forall (fuel : nat) (env : interference E) (h : heap E),
    (m1 <= fuel)%nat -> (m2 <= fuel)%nat ->
    let '(sz1, h1, tr1) := run (queue_size (_queues s k1)) env h in
    let '(sz2, h2, tr2) := run (queue_size (_queues s k2)) (shift 2 env) h1 in
    let victim := if sz1 <? sz2 then k2 else k1 in
    let '(r, h3, tr3) := run (pop_global (_queues s victim) t) (shift 4 env) h2 in
    run (steal_best_of_2 randomParkAndMiller fuel s queue_num seed t) env h =
    (Some (r, seed2), h3, tr1 ++ tr2 ++ tr3).
Proof.
  intros Hn H1 H2.
  pose proof (draw_while_exit _ _ _ _ _ _ _ H1) as Hk1.
  pose proof (draw_while_exit _ _ _ _ _ _ _ H2) as Hk2.
  cbn beta in Hk1, Hk2.
  apply Bool.orb_false_iff in Hk2 as [Hk2a Hk2b].
  apply Z.eqb_neq in Hk1, Hk2a, Hk2b.
  repeat split; try assumption.
  intros fuel env h Hf1 Hf2.
  unfold steal_best_of_2.
  destruct (Z.ltb_spec 2 (_n s)); [| lia].
  rewrite (draw_while_mono _ _ _ _ _ _ _ Hf1 H1).
  rewrite (draw_while_mono _ _ _ _ _ _ _ Hf2 H2).
  unfold queue_size, get_top, get_age, load_bottom.
  cbn [bind run emit]. cbv [shift Nat.add].
  match goal with
  | |- context [if ?c then bind _ _ else bind _ _] => destruct c
  end;
    rewrite run_bind; cbv [shift Nat.add];
    match goal with
    | |- context [run (pop_global ?q t) ?e ?g] =>
        destruct (run (pop_global q t) e g) as [[r h3] tr3]
    end;
    cbn [run emit app]; rewrite app_nil_r; reflexivity.
Qed.

(** The index of "the other one" in a set of two queues. *)
Lemma other_queue_index (queue_num : Z) :
  0 <= queue_num < 2 ->
  Z.rem (to_jint (queue_num + 1)) 2 = (queue_num + 1) mod 2 /\
  (queue_num + 1) mod 2 = 1 - queue_num.
Proof.
  intros H.
  assert (Hq : queue_num = 0 \/ queue_num = 1) by lia.
  destruct Hq as [-> | ->]; split; reflexivity.
Qed.

(** C8: for a caller [queue_num] of a set of at most two queues, each of
    the three policies is, when [_n == 2], one [pop_global] on the queue of
    index [(queue_num + 1) mod 2], the one that is not the caller's; and,
    when [_n == 1], the return of false with no access to any queue. *)
Theorem steal_degenerate (fuel : nat) (s : GenericTaskQueueSet)
    (queue_num seed : Z) (t : E) :
  0 <= queue_num < _n s ->
  _n s <= 2 ->
  let k := (queue_num + 1) mod 2 in
  let policy : prog E (option (stolen E)) :=
    if _n s =? 2
    then r <- pop_global (_queues s k) t ;; Ret (Some (r, seed))
    else Ret (Some (false, t, seed)) in
  (_n s = 2 \/ _n s = 1) /\
  (if _n s =? 2 then k <> queue_num /\ 0 <= k < 2 else True) /\
  steal_1_random randomParkAndMiller fuel s queue_num seed t = policy /\
  steal_best_of_2 randomParkAndMiller fuel s queue_num seed t = policy /\
  steal_best_of_all s queue_num seed t = policy.
Proof.
  intros Hq Hn k policy.
  unfold policy, steal_1_random, steal_best_of_2, steal_best_of_all.
  destruct (Z.ltb_spec 2 (_n s)); [lia |].
  destruct (Z.eqb_spec (_n s) 2) as [H2 | H2].
  - destruct (other_queue_index queue_num) as [Hrem Hother]; [lia |].
    cbn zeta. rewrite Hrem. fold k.
    repeat split; try reflexivity; unfold k; lia.
  - repeat split; try reflexivity. lia.
Qed.

(** An attempt has no result only when one of its two draw loops did not
    end within the fuel; that needs a set of more than two queues. *)
Lemma attempt_out_of_fuel (fuel : nat) (s : GenericTaskQueueSet)
    (queue_num : Z) (st : steal_state E) :
  attempt randomParkAndMiller fuel s queue_num st = None ->
  2 < _n s /\
  (draw_while randomParkAndMiller (_n s) fuel (fun k1 => k1 =? queue_num)
              queue_num (st_seed st) = None
   \/
   exists k1 seed1 : Z,
     draw_while randomParkAndMiller (_n s) fuel (fun k1 => k1 =? queue_num)
                queue_num (st_seed st) = Some (k1, seed1) /\
     draw_while randomParkAndMiller (_n s) fuel
                (fun k2 => (k2 =? queue_num) || (k2 =? k1))
                queue_num seed1 = None).
Proof.
  unfold attempt, steal_best_of_2.
  destruct (Z.ltb_spec 2 (_n s)) as [Hn | Hn].
  - intros H. split; [exact Hn |].
    destruct (draw_while randomParkAndMiller (_n s) fuel
                (fun k1 => k1 =? queue_num) queue_num (st_seed st))
      as [[k1 seed1] |]; [| left; reflexivity].
    right. exists k1, seed1. split; [reflexivity |].
    destruct (draw_while randomParkAndMiller (_n s) fuel
                (fun k2 => (k2 =? queue_num) || (k2 =? k1)) queue_num seed1)
      as [[k2 seed2] |]; [| reflexivity].
    exfalso. revert H.
    unfold queue_size, get_top, get_age, load_bottom.
    cbn [bind run emit].
    match goal with
    | |- context [if ?c then bind _ _ else bind _ _] => destruct c
    end;
      rewrite run_bind;
      match goal with
      | |- context [run (pop_global ?q ?t) ?e ?g] =>
          destruct (run (pop_global q t) e g) as [[[b t'] h3] tr3]
      end;
      cbn [run emit]; discriminate.
  - destruct (_n s =? 2).
    + rewrite run_bind.
      match goal with
      | |- context [run (pop_global ?q ?t) ?e ?g] =>
          destruct (run (pop_global q t) e g) as [[[b t'] h3] tr3]
      end.
      cbn [run]. discriminate.
    + cbn [run]. discriminate.
Qed.

(** [steal_loop]: the attempts made from [st], one after the other. *)
Lemma steal_loop_attempts (fuel : nat) (s : GenericTaskQueueSet) (queue_num : Z) :
  forall (count : nat) (st : steal_state E),
    let res := run (steal_loop randomParkAndMiller count fuel s queue_num
                      (st_seed st) (st_t st)) (st_env st) (st_heap st) in
    exists (j : nat) (st' : steal_state E),
      (j <= count)%nat /\
      failed_attempts randomParkAndMiller j fuel s queue_num st = Some st' /\
      ((j = count /\
        fst res = (Some (false, st_t st', st_seed st'), st_heap st'))
       \/
       ((j < count)%nat /\
        exists st'' : steal_state E,
          attempt randomParkAndMiller fuel s queue_num st' = Some (true, st'') /\
          fst res = (Some (true, st_t st'', st_seed st''), st_heap st''))
       \/
       ((j < count)%nat /\
        attempt randomParkAndMiller fuel s queue_num st' = None /\
        fst (fst res) = None)).
Proof.
  induction count as [| count IH]; intros st res.
  - exists 0%nat, st. split; [lia |]. split; [reflexivity |].
    left. split; reflexivity.
  - unfold res. cbn [steal_loop]. rewrite run_bind.
    destruct (run (steal_best_of_2 randomParkAndMiller fuel s queue_num
                     (st_seed st) (st_t st)) (st_env st) (st_heap st))
      as [[a h1] tr1] eqn:Hrun.
    destruct a as [[[[|] t'] seed'] |].
    + (* this attempt succeeds *)
      exists 0%nat, st. split; [lia |]. split; [reflexivity |].
      right; left. split; [lia |].
      exists (mkStealState seed' t' (shift (length tr1) (st_env st)) h1).
      unfold attempt. rewrite Hrun. split; reflexivity.
    + (* this attempt fails: the loop goes on from the state it leaves *)
      set (st1 := mkStealState seed' t' (shift (length tr1) (st_env st)) h1).
      destruct (IH st1) as (j & st' & Hle & Hfail & Hres).
      exists (S j), st'. split; [lia |].
      split.
      { cbn [failed_attempts]. unfold attempt. rewrite Hrun. exact Hfail. }
      cbn [st_seed st_t st_env st_heap st1] in Hres.
      destruct (run (steal_loop randomParkAndMiller count fuel s queue_num
                       seed' t') (shift (length tr1) (st_env st)) h1)
        as [[b h2] tr2].
      cbn [fst] in *.
      destruct Hres as [[-> Hr] | [[Hlt (st'' & Hatt & Hr)] | [Hlt [Hatt Hr]]]].
      * left. split; [reflexivity | exact Hr].
      * right; left. split; [lia |]. exists st''. split; assumption.
      * right; right. split; [lia |]. split; assumption.
    + (* a draw ran out of fuel *)
      exists 0%nat, st. split; [lia |]. split; [reflexivity |].
      right; right. split; [lia |].
      unfold attempt. rewrite Hrun. split; reflexivity.
Qed.

(** C6: [steal] makes best-of-two attempts one after the other, each from
    the state the one before left.  There is a number [j <= 2 * _n] of
    attempts that returned false, after which either [j = 2 * _n] and
    [steal] returns false, or the next attempt returns true and [steal]
    returns true at once (with that attempt's [t], seed and memory), or the
    next attempt has no result, a draw loop of it not ending within the
    fuel. *)
Theorem steal_attempts (fuel : nat) (s : GenericTaskQueueSet)
    (queue_num seed : Z) (t : E) (env : interference E) (h : heap E) :
  0 <= _n s < 2 ^ 30 ->
  let st0 := mkStealState seed t env h in
  let res := run (steal randomParkAndMiller fuel s queue_num seed t) env h in
  exists (j : nat) (st : steal_state E),
    Z.of_nat j <= 2 * _n s /\
    failed_attempts randomParkAndMiller j fuel s queue_num st0 = Some st /\
    ((Z.of_nat j = 2 * _n s /\
      fst res = (Some (false, st_t st, st_seed st), st_heap st))
     \/
     (Z.of_nat j < 2 * _n s /\
      exists st' : steal_state E,
        attempt randomParkAndMiller fuel s queue_num st = Some (true, st') /\
        fst res = (Some (true, st_t st', st_seed st'), st_heap st'))
     \/
     (Z.of_nat j < 2 * _n s /\
      attempt randomParkAndMiller fuel s queue_num st = None /\
      fst (fst res) = None)).
Proof.
  intros Hn st0 res.
  assert (Hcount : Z.of_nat (Z.to_nat (to_jint (2 * _n s))) = 2 * _n s).
  { unfold to_jint. rewrite Z.mod_small by lia. lia. }
  destruct (steal_loop_attempts fuel s queue_num
              (Z.to_nat (to_jint (2 * _n s))) st0)
    as (j & st & Hle & Hfail & Hres).
  exists j, st.
  split; [lia |]. split; [exact Hfail |].
  change (run (steal_loop randomParkAndMiller (Z.to_nat (to_jint (2 * _n s)))
                 fuel s queue_num (st_seed st0) (st_t st0))
              (st_env st0) (st_heap st0)) with res in Hres.
  destruct Hres as [[Hj Hr] | [[Hlt Hr] | [Hlt Hr]]].
  - left. split; [lia | exact Hr].
  - right; left. split; [lia | exact Hr].
  - right; right. split; [lia | exact Hr].
Qed.

End Stealing.

(** ** Concrete runs *)

(** The owner alone: three pushes, then [pop_local] returns the elements
    youngest first and then reports the empty queue. *)
Example owner_pops_in_reverse_order :
  fst (fst (run (push 0 11 ;; push 0 22 ;; push 0 33 ;;
                 r1 <- pop_local 0 0 ;;
                 r2 <- pop_local 0 0 ;;
                 r3 <- pop_local 0 0 ;;
                 r4 <- pop_local 0 0 ;;
                 Ret [r1; r2; r3; r4])
                no_interference fresh_heap))
  = [(true, 33); (true, 22); (true, 11); (false, 0)].
Proof. vm_compute. reflexivity. Qed.

(** A thief alone after two pushes: [pop_global] returns the elements
    oldest first. *)
Example thief_pops_in_push_order :
  fst (fst (run (push 0 11 ;; push 0 22 ;;
                 r1 <- pop_global 0 0 ;;
                 r2 <- pop_global 0 0 ;;
                 r3 <- pop_global 0 0 ;;
                 Ret [r1; r2; r3])
                no_interference fresh_heap))
  = [(true, 11); (true, 22); (false, 0)].
Proof. vm_compute. reflexivity. Qed.

(** The queue with [_bottom = 0] and [top = 1]: dirty size [n - 1], read
    as size 0; [push] takes the slow path and succeeds. *)
Example push_on_transiently_empty_queue :
  let h : heap Z := fun _ => mkTaskQueue 0 (mkAge 1 0) (fun _ => 0) in
  dirty_size 0 1 = n - 1 /\
  size 0 1 = 0 /\
  fst (run (push 0 5) no_interference h) =
    (true, snd (fst (run (push 0 5) no_interference h))) /\
  _bottom (snd (fst (run (push 0 5) no_interference h)) 0) = 1 /\
  _elems (snd (fst (run (push 0 5) no_interference h)) 0) 0 = 5.
Proof. vm_compute. repeat split; reflexivity. Qed.

(** The queue holding [n - 2] elements is full. *)
Example push_on_full_queue :
  let h : heap Z := fun _ => mkTaskQueue (n - 2) Age_init (fun _ => 0) in
  fst (fst (run (push 0 5) no_interference h)) = false /\
  snd (run (push 0 5) no_interference h) =
    [EvLoadBottom 0 (n - 2); EvLoadAge 0 Age_init].
Proof. vm_compute. split; reflexivity. Qed.

(** A thief that loses the last element to the owner: the owner's whole
    [pop_local] runs between the thief's element load and its
    compare-and-swap.  The thief returns false, and its [t], 0 before the
    call, now holds the element the owner took. *)
Example pop_global_lost_race_overwrites_t :
  let h : heap Z := fun _ => mkTaskQueue 1 Age_init (fun _ => 42) in
  let owner : interference Z := fun i g =>
    if Nat.eqb i 3 then snd (fst (run (pop_local 0 0) no_interference g)) else g in
  fst (fst (run (pop_local 0 0) no_interference h)) = (true, 42) /\
  fst (fst (run (pop_global 0 0) owner h)) = (false, 42) /\
  _age (snd (fst (run (pop_global 0 0) owner h)) 0) = mkAge 0 1 /\
  _bottom (snd (fst (run (pop_global 0 0) owner h)) 0) = 0.
Proof. vm_compute. repeat split; reflexivity. Qed.

(** Four empty queues: [steal] for queue 0 makes its eight attempts, six
    accesses each, and returns false. *)
Example steal_from_empty_set :
  fst (fst (run (steal park_miller 8 (queue_set 4) 0 1 0)
                no_interference fresh_heap)) = Some (false, 0, 1505795335) /\
  length (snd (run (steal park_miller 8 (queue_set 4) 0 1 0)
                   no_interference fresh_heap)) = 48%nat.
Proof. vm_compute. split; reflexivity. Qed.

(** Queue 3 holds one element: the first attempt draws [k1 = 3] and
    [k2 = 1], samples sizes 1 and 0, and takes the element from queue 3. *)
Example steal_from_larger_victim :
  let h : heap Z := fun p =>
    if p =? 3 then mkTaskQueue 1 Age_init (fun _ => 42) else fresh_queue 0 in
  run (steal park_miller 8 (queue_set 4) 0 1 0) no_interference h =
  (Some (true, 42, 282475249),
   snd (fst (run (steal park_miller 8 (queue_set 4) 0 1 0) no_interference h)),
   [EvLoadBottom 3 1; EvLoadAge 3 Age_init;
    EvLoadBottom 1 0; EvLoadAge 1 Age_init;
    EvLoadAge 3 Age_init; EvLoadBottom 3 1; EvLoadElem 3 0 42;
    EvCmpxchg 3 (mkAge 1 0) Age_init Age_init]).
Proof. vm_compute. reflexivity. Qed.

(** C5: in a set of four queues, the caller of queue 2 with seed 1 draws
    [k = 3], yet [steal_1_random] calls [pop_global] on [_queues[2]], which
    is the caller's own queue and not the index drawn. *)
Theorem steal_1_random_ignores_drawn_index :
  draw_while park_miller 4 1 (fun k => k =? 2) 2 1 = Some (3, 16807) /\
  forall t : Z,
    steal_1_random park_miller 1 (queue_set 4) 2 1 t =
    (r <- pop_global (_queues (queue_set 4) 2) t ;; Ret (Some (r, 16807))).
Proof.
  split; [reflexivity |].
  intros t. reflexivity.
Qed.

(** [steal_best_of_2_victim] for queue 0 of four, seed 1: the draws give
    [k1 = 3], then [k2 = 1]. *)
Lemma steal_best_of_2_victim_witness :
  2 < _n (queue_set 4) /\
  (3 <> 0 /\ 1 <> 0 /\ 1 <> 3 /\
   forall (fuel : nat) (env : interference Z) (h : heap Z),
     (1 <= fuel)%nat -> (1 <= fuel)%nat ->
     let '(sz1, h1, tr1) := run (queue_size (_queues (queue_set 4) 3)) env h in
     let '(sz2, h2, tr2) :=
       run (queue_size (_queues (queue_set 4) 1)) (shift 2 env) h1 in
     let victim := if sz1 <? sz2 then 1 else 3 in
     let '(r, h3, tr3) :=
       run (pop_global (_queues (queue_set 4) victim) 0) (shift 4 env) h2 in
     run (steal_best_of_2 park_miller fuel (queue_set 4) 0 1 0) env h =
     (Some (r, 282475249), h3, tr1 ++ tr2 ++ tr3)).
Proof.
  split; [reflexivity |].
  apply (steal_best_of_2_victim park_miller (queue_set 4) 0 1 0 1 1
           3 16807 1 282475249).
  - reflexivity.
  - reflexivity.
  - reflexivity.
Defined.

(** [pop_local_empty] on a fresh queue. *)
Lemma pop_local_empty_witness :
  dirty_size (_bottom (fresh_heap 0)) (_top (_age (fresh_heap 0))) = 0 /\
  run (pop_local 0 7) no_interference fresh_heap =
  ((false, 7), fresh_heap, [EvLoadBottom 0 0; EvLoadAge 0 Age_init]).
Proof.
  split; [reflexivity |].
  apply (pop_local_empty 0 7 no_interference fresh_heap).
  reflexivity.
Defined.

(** [pop_local_slow_spec] on a fresh queue: the compare-and-swap wins. *)
Lemma pop_local_slow_spec_witness :
  (0 <= 0 < n /\ _bottom (fresh_heap 0) = 0 /\ owner_of 0 (@no_interference Z)) /\
  (fst (fst (run (pop_local_slow 0 0 Age_init) no_interference fresh_heap)) = true /\
   snd (run (pop_local_slow 0 0 Age_init) no_interference fresh_heap) =
     [EvCmpxchg 0 (mkAge 0 1) Age_init Age_init] /\
   _age (snd (fst (run (pop_local_slow 0 0 Age_init) no_interference fresh_heap)) 0) =
     mkAge 0 1 /\
   _bottom (snd (fst (run (pop_local_slow 0 0 Age_init) no_interference fresh_heap)) 0) =
     _top (_age (snd (fst (run (pop_local_slow 0 0 Age_init) no_interference fresh_heap)) 0)) /\
   size
     (_bottom (snd (fst (run (pop_local_slow 0 0 Age_init) no_interference fresh_heap)) 0))
     (_top (_age (snd (fst (run (pop_local_slow 0 0 Age_init) no_interference fresh_heap)) 0)))
     = 0 /\
   dirty_size
     (_bottom (snd (fst (run (pop_local_slow 0 0 Age_init) no_interference fresh_heap)) 0))
     (_top (_age (snd (fst (run (pop_local_slow 0 0 Age_init) no_interference fresh_heap)) 0)))
     <> n - 1).
Proof.
  assert (H1 : 0 <= 0 < n) by (split; [lia | reflexivity]).
  assert (H2 : _bottom (fresh_heap 0) = 0) by reflexivity.
  assert (H3 : owner_of 0 (@no_interference Z)) by (intros i h; reflexivity).
  split; [split; [exact H1 | split; [exact H2 | exact H3]] |].
  exact (pop_local_slow_spec 0 0 Age_init no_interference fresh_heap H1 H2 H3).
Defined.

(** [steal_degenerate] for queue 1 of two: the victim is queue 0. *)
Lemma steal_degenerate_witness :
  (0 <= 1 < _n (queue_set 2) /\ _n (queue_set 2) <= 2) /\
  ((_n (queue_set 2) = 2 \/ _n (queue_set 2) = 1) /\
   (0 <> 1 /\ 0 <= 0 < 2) /\
   steal_1_random park_miller 0 (queue_set 2) 1 1 5 =
     (r <- pop_global 0 5 ;; Ret (Some (r, 1))) /\
   steal_best_of_2 park_miller 0 (queue_set 2) 1 1 5 =
     (r <- pop_global 0 5 ;; Ret (Some (r, 1))) /\
   steal_best_of_all (queue_set 2) 1 1 5 =
     (r <- pop_global 0 5 ;; Ret (Some (r, 1)))).
Proof.
  assert (H1 : 0 <= 1 < _n (queue_set 2)) by (cbn; lia).
  assert (H2 : _n (queue_set 2) <= 2) by (cbn; lia).
  split; [split; assumption |].
  exact (steal_degenerate park_miller 0 (queue_set 2) 1 1 5 H1 H2).
Defined.

(** [steal_attempts] for queue 0 of four fresh queues. *)
Lemma steal_attempts_witness :
  0 <= _n (queue_set 4) < 2 ^ 30 /\
  exists (j : nat) (st : steal_state Z),
    Z.of_nat j <= 2 * _n (queue_set 4) /\
    failed_attempts park_miller j 4 (queue_set 4) 0
      (mkStealState 1 0 no_interference fresh_heap) = Some st /\
    ((Z.of_nat j = 2 * _n (queue_set 4) /\
      fst (run (steal park_miller 4 (queue_set 4) 0 1 0) no_interference fresh_heap) =
        (Some (false, st_t st, st_seed st), st_heap st))
     \/
     (Z.of_nat j < 2 * _n (queue_set 4) /\
      exists st' : steal_state Z,
        attempt park_miller 4 (queue_set 4) 0 st = Some (true, st') /\
        fst (run (steal park_miller 4 (queue_set 4) 0 1 0) no_interference fresh_heap) =
          (Some (true, st_t st', st_seed st'), st_heap st'))
     \/
     (Z.of_nat j < 2 * _n (queue_set 4) /\
      attempt park_miller 4 (queue_set 4) 0 st = None /\
      fst (fst (run (steal park_miller 4 (queue_set 4) 0 1 0) no_interference fresh_heap)) =
        None)).
Proof.
  assert (H1 : 0 <= _n (queue_set 4) < 2 ^ 30) by (cbn; lia).
  split; [exact H1 |].
  exact (steal_attempts park_miller 4 (queue_set 4) 0 1 0 no_interference fresh_heap H1).
Defined.

(** ** More on the index operations *)

Ltac mod_n :=
  rewrite ?increment_index_mod, ?decrement_index_mod, ?dirty_size_mod in *;
  change n with 16384 in *;
  Z.div_mod_to_equations; lia.

(** X1: on the indices [0 .. n-1], [increment_index] and [decrement_index]
    are inverse of each other and stay within the indices; the last index
    is followed by 0. *)
Theorem index_round_trip (ind : Z) :
  0 <= ind < n ->
  decrement_index (increment_index ind) = ind /\
  increment_index (decrement_index ind) = ind /\
  0 <= increment_index ind < n /\
  0 <= decrement_index ind < n /\
  increment_index (n - 1) = 0 /\
  decrement_index 0 = n - 1.
Proof.
  intros H.
  repeat split; try reflexivity; mod_n.
Qed.

(** ** The owner and a thief, one at a time *)

Ltac seq_run :=
  cbn [bind run emit fst snd]; cbv [shift no_interference].

Section Sequential.

Context {E : Type}.

Lemma upd_same (h : heap E) (this : Z) (q : TaskQueue E) :
  upd h this q this = q.
Proof. unfold upd. now rewrite Z.eqb_refl. Qed.

Lemma upd_other (h : heap E) (this p : Z) (q : TaskQueue E) :
  p <> this -> upd h this q p = h p.
Proof.
  intros Hp. unfold upd.
  destruct (Z.eqb_spec p this); [contradiction | reflexivity].
Qed.

(** [push] alone on a queue with room: the queue gains its youngest
    element. *)
Lemma push_alone (this : Z) (t : E) (l : list E) (h : heap E) :
  holds (h this) l ->
  Z.of_nat (length l) < n - 2 ->
  let res := run (push this t) no_interference h in
  fst (fst res) = true /\
  holds (snd (fst res) this) (t :: l) /\
  _age (snd (fst res) this) = _age (h this) /\
  forall p : Z, p <> this -> snd (fst res) p = h p.
Proof.
  intros (Hwf & Hcap & Hdirty & Hslots) Hlen res.
  destruct Hwf as (Hb & Htop & Htag).
  assert (Hmax : max_elems = n - 2) by reflexivity.
  unfold res, push, get_top, get_age, load_bottom, store_elem, store_bottom.
  seq_run.
  rewrite Hdirty, Hmax.
  destruct (Z.ltb_spec (Z.of_nat (length l)) (n - 2)) as [_ | Hge]; [| lia].
  seq_run.
  rewrite !upd_same. cbn [with_bottom with_elem _bottom _age _elems].
  split; [reflexivity |].
  split; [| split; [reflexivity |]].
  - unfold holds, well_formed.
    cbn [with_bottom with_elem _bottom _age _elems length].
    rewrite Nat2Z.inj_succ.
    split; [repeat split; try tauto; mod_n |].
    split; [lia |].
    split; [mod_n |].
    intros i e Hnth.
    destruct i as [| i]; cbn [nth_error] in Hnth.
    + injection Hnth as <-.
      destruct (Z.eqb_spec
                  ((increment_index (_bottom (h this)) - 1 - Z.of_nat 0) mod n)
                  (_bottom (h this))) as [_ | Hne]; [reflexivity |].
      exfalso. apply Hne. mod_n.
    + assert (Hi : (i < length l)%nat)
        by (apply nth_error_Some; rewrite Hnth; discriminate).
      destruct (Z.eqb_spec
                  ((increment_index (_bottom (h this)) - 1 - Z.of_nat (S i)) mod n)
                  (_bottom (h this))) as [Heq | _].
      * exfalso. revert Heq. mod_n.
      * rewrite <- (Hslots i e Hnth). f_equal. mod_n.
  - intros p Hp. now rewrite !upd_other.
Qed.

(** X2: with no other thread running, [push] on a queue that holds [l],
    fewer than [n - 2] elements, returns true and leaves the queue holding
    [t :: l]; the age word and the other queues are as they were. *)
Theorem push_holds (this : Z) (t : E) (l : list E) (h : heap E) :
  holds (h this) l ->
  Z.of_nat (length l) < n - 2 ->
  let res := run (push this t) no_interference h in
  fst (fst res) = true /\
  holds (snd (fst res) this) (t :: l) /\
  _age (snd (fst res) this) = _age (h this) /\
  forall p : Z, p <> this -> snd (fst res) p = h p.
Proof. exact (push_alone this t l h). Qed.

Lemma Age_eqb_refl (a : Age) : Age_eqb a a = true.
Proof. unfold Age_eqb. now rewrite !Z.eqb_refl. Qed.

Ltac heap_simpl :=
  rewrite ?upd_same;
  cbn [with_bottom with_age with_elem _bottom _age _elems _top _tag].

(** [pop_local] alone on a non-empty queue: the youngest element goes. *)
Lemma pop_local_alone (this : Z) (t e : E) (l : list E) (h : heap E) :
  holds (h this) (e :: l) ->
  let res := run (pop_local this t) no_interference h in
  fst (fst res) = (true, e) /\
  holds (snd (fst res) this) l /\
  forall p : Z, p <> this -> snd (fst res) p = h p.
Proof.
  intros (Hwf & Hcap & Hdirty & Hslots) res.
  destruct Hwf as (Hb & Htop & Htag).
  cbn [length] in Hcap, Hdirty. rewrite Nat2Z.inj_succ in Hcap, Hdirty.
  assert (He : _elems (h this) (decrement_index (_bottom (h this))) = e).
  { rewrite <- (Hslots 0%nat e eq_refl). f_equal. mod_n. }
  unfold res, pop_local, get_top, get_age, load_bottom, store_bottom,
    fence, load_elem.
  seq_run. rewrite Hdirty.
  destruct (Z.eqb_spec (Z.succ (Z.of_nat (length l))) 0) as [H0 | _]; [lia |].
  seq_run. heap_simpl. rewrite He.
  assert (Hslots' : forall (i : nat) (e' : E),
            nth_error l i = Some e' ->
            _elems (h this)
              ((decrement_index (_bottom (h this)) - 1 - Z.of_nat i) mod n) = e').
  { intros i e' Hnth. rewrite <- (Hslots (S i) e' Hnth). f_equal. mod_n. }
  destruct l as [| e2 l].
  - (* the last element: the slow path, and the compare-and-swap wins *)
    cbn [length] in *.
    assert (Hdec : decrement_index (_bottom (h this)) = _top (_age (h this)))
      by mod_n.
    rewrite Hdec in *.
    destruct (canonical_empty (_top (_age (h this)))) as [Hsz _].
    rewrite Hsz. cbn [Z.ltb Z.compare].
    seq_run. heap_simpl.
    unfold pop_local_slow, cmpxchg. rewrite Z.eqb_refl.
    seq_run. heap_simpl. rewrite Age_eqb_refl.
    seq_run. heap_simpl.
    split; [reflexivity |].
    split; [| intros p Hp; now rewrite !upd_other].
    assert (Hshort : to_jushort (_top (_age (h this))) = _top (_age (h this))).
    { unfold to_jushort. apply Z.mod_small.
      assert (Hn : n = 16384) by reflexivity. lia. }
    rewrite Hshort.
    unfold holds, well_formed.
    cbn [with_bottom with_age _bottom _age _elems _top _tag length].
    split; [repeat split; try tauto; unfold to_jushort;
            apply Z.mod_pos_bound; lia |].
    split; [assert (Hn : n = 16384) by reflexivity; lia |].
    split; [mod_n |].
    intros i e' Hnth. destruct i; discriminate.
  - (* at least one element stays: the fast path *)
    cbn [length] in *. rewrite Nat2Z.inj_succ in *.
    assert (Hsz : size (decrement_index (_bottom (h this))) (_top (_age (h this)))
                  = Z.succ (Z.of_nat (length l))).
    { rewrite size_cases.
      assert (Hd : dirty_size (decrement_index (_bottom (h this)))
                     (_top (_age (h this))) = Z.succ (Z.of_nat (length l)))
        by mod_n.
      rewrite Hd.
      destruct (Z.eqb_spec (Z.succ (Z.of_nat (length l))) (n - 1)); [lia |].
      reflexivity. }
    rewrite Hsz.
    destruct (Z.ltb_spec 0 (Z.succ (Z.of_nat (length l)))) as [_ | Hle]; [| lia].
    seq_run.
    split; [reflexivity |].
    split; [| intros p Hp; now rewrite !upd_other].
    heap_simpl.
    unfold holds, well_formed.
    cbn [with_bottom with_age _bottom _age _elems _top _tag length].
    rewrite Nat2Z.inj_succ.
    split; [repeat split; try tauto; mod_n |].
    split; [lia |].
    split; [mod_n |].
    exact Hslots'.
Qed.

(** X3: with no other thread running, [pop_local] on a queue that holds
    [e :: l] returns true with [e], the youngest element, and leaves the
    queue holding [l]; the other queues are as they were. *)
Theorem pop_local_holds (this : Z) (t e : E) (l : list E) (h : heap E) :
  holds (h this) (e :: l) ->
  let res := run (pop_local this t) no_interference h in
  fst (fst res) = (true, e) /\
  holds (snd (fst res) this) l /\
  forall p : Z, p <> this -> snd (fst res) p = h p.
Proof. exact (pop_local_alone this t e l h). Qed.

(** [pop_global] alone on a non-empty queue: the oldest element goes. *)
Lemma pop_global_alone (this : Z) (t e : E) (l : list E) (h : heap E) :
  holds (h this) (l ++ [e]) ->
  let res := run (pop_global this t) no_interference h in
  fst (fst res) = (true, e) /\
  holds (snd (fst res) this) l /\
  _bottom (snd (fst res) this) = _bottom (h this) /\
  _elems (snd (fst res) this) = _elems (h this) /\
  forall p : Z, p <> this -> snd (fst res) p = h p.
Proof.
  intros (Hwf & Hcap & Hdirty & Hslots) res.
  destruct Hwf as (Hb & Htop & Htag).
  rewrite length_app in Hcap, Hdirty. cbn [length] in Hcap, Hdirty.
  rewrite Nat2Z.inj_add in Hcap, Hdirty. cbn [Z.of_nat Pos.of_succ_nat] in Hcap, Hdirty.
  assert (He : _elems (h this) (_top (_age (h this))) = e).
  { rewrite <- (Hslots (length l) e).
    - f_equal. mod_n.
    - rewrite nth_error_app2 by lia. now rewrite Nat.sub_diag. }
  assert (Hsz : size (_bottom (h this)) (_top (_age (h this)))
                = Z.of_nat (length l) + 1).
  { rewrite size_cases, Hdirty.
    destruct (Z.eqb_spec (Z.of_nat (length l) + 1) (n - 1)); [lia |].
    reflexivity. }
  unfold res. rewrite run_pop_global. cbv [no_interference].
  rewrite Hsz, He, Age_eqb_refl.
  destruct (Z.eqb_spec (Z.of_nat (length l) + 1) 0) as [H0 | _]; [lia |].
  cbn [fst snd]. heap_simpl.
  split; [reflexivity |].
  split; [| split; [reflexivity | split; [reflexivity |]]].
  - unfold holds, well_formed, advanced_age.
    cbv zeta. cbn [with_age _bottom _age _elems _top _tag].
    split.
    { split; [tauto |]. split; [mod_n |].
      destruct ((_top (_age (h this)) + 1) mod n =? 0).
      - apply Z.mod_pos_bound. lia.
      - tauto. }
    split; [lia |].
    split; [mod_n |].
    intros i e' Hnth. apply Hslots.
    rewrite nth_error_app1; [exact Hnth |].
    apply nth_error_Some. rewrite Hnth. discriminate.
  - intros p Hp. now rewrite upd_other.
Qed.

(** X4: with no other thread running, [pop_global] on a queue that holds
    [l ++ [e]] returns true with [e], the oldest element, and leaves the
    queue holding [l]; [_bottom], the slots and the other queues are as
    they were. *)
Theorem pop_global_holds (this : Z) (t e : E) (l : list E) (h : heap E) :
  holds (h this) (l ++ [e]) ->
  let res := run (pop_global this t) no_interference h in
  fst (fst res) = (true, e) /\
  holds (snd (fst res) this) l /\
  _bottom (snd (fst res) this) = _bottom (h this) /\
  _elems (snd (fst res) this) = _elems (h this) /\
  forall p : Z, p <> this -> snd (fst res) p = h p.
Proof. exact (pop_global_alone this t e l h). Qed.

(** With no other thread running, the run of [p ;; f]. *)
Lemma run_bind_alone {A B : Type} (p : prog E A) (f : A -> prog E B) (h : heap E) :
  run (bind p f) no_interference h =
  let '(a, h1, tr1) := run p no_interference h in
  let '(b, h2, tr2) := run (f a) no_interference h1 in
  (b, h2, tr1 ++ tr2).
Proof.
  rewrite run_bind.
  destruct (run p no_interference h) as [[a h1] tr1].
  change (shift (length tr1) no_interference) with (@no_interference E).
  reflexivity.
Qed.

(** Pushing [l] onto a queue with room for it. *)
Lemma push_all_holds (this : Z) (l : list E) :
  forall (l0 : list E) (h : heap E),
    holds (h this) l0 ->
    Z.of_nat (length l0) + Z.of_nat (length l) <= n - 2 ->
    let res := run (push_all this l) no_interference h in
    fst (fst res) = true /\
    holds (snd (fst res) this) (rev l ++ l0) /\
    forall p : Z, p <> this -> snd (fst res) p = h p.
Proof.
  induction l as [| t l IH]; intros l0 h Hh Hlen res.
  - split; [reflexivity |]. split; [exact Hh | reflexivity].
  - cbn [length] in Hlen. rewrite Nat2Z.inj_succ in Hlen.
    unfold res. cbn [push_all]. rewrite run_bind_alone.
    destruct (push_alone this t l0 h Hh) as (Hr & Hh1 & _ & Hfr1); [lia |].
    destruct (run (push this t) no_interference h) as [[b h1] tr1].
    cbn [fst snd] in Hr, Hh1, Hfr1. subst b.
    rewrite run_bind_alone.
    destruct (IH (t :: l0) h1 Hh1) as (Hr2 & Hh2 & Hfr2).
    { cbn [length]. rewrite Nat2Z.inj_succ. lia. }
    destruct (run (push_all this l) no_interference h1) as [[b2 h2] tr2].
    cbn [fst snd run] in *. subst b2.
    split; [reflexivity |].
    split.
    + cbn [rev]. rewrite <- app_assoc. exact Hh2.
    + intros p Hp. rewrite Hfr2 by exact Hp. now apply Hfr1.
Qed.

(** Popping the [length l] youngest elements. *)
Lemma pop_local_n_holds (this : Z) (l : list E) :
  forall (l0 : list E) (t : E) (h : heap E),
    holds (h this) (l ++ l0) ->
    let res := run (pop_local_n this (length l) t) no_interference h in
    fst (fst res) = map (pair true) l /\
    holds (snd (fst res) this) l0 /\
    forall p : Z, p <> this -> snd (fst res) p = h p.
Proof.
  induction l as [| e l IH]; intros l0 t h Hh res.
  - split; [reflexivity |]. split; [exact Hh | reflexivity].
  - unfold res. cbn [length pop_local_n]. rewrite run_bind_alone.
    destruct (pop_local_alone this t e (l ++ l0) h Hh) as (Hr & Hh1 & Hfr1).
    destruct (run (pop_local this t) no_interference h) as [[r h1] tr1].
    cbn [fst snd] in Hr, Hh1, Hfr1. subst r.
    rewrite run_bind_alone. cbn [snd].
    destruct (IH l0 e h1 Hh1) as (Hr2 & Hh2 & Hfr2).
    destruct (run (pop_local_n this (length l) e) no_interference h1)
      as [[rs h2] tr2].
    cbn [fst snd run map] in *. subst rs.
    split; [reflexivity |].
    split; [exact Hh2 |].
    intros p Hp. rewrite Hfr2 by exact Hp. now apply Hfr1.
Qed.

(** Stealing all of a queue that holds [rev l]. *)
Lemma pop_global_n_holds (this : Z) (l : list E) :
  forall (t : E) (h : heap E),
    holds (h this) (rev l) ->
    let res := run (pop_global_n this (length l) t) no_interference h in
    fst (fst res) = map (pair true) l /\
    holds (snd (fst res) this) [] /\
    forall p : Z, p <> this -> snd (fst res) p = h p.
Proof.
  induction l as [| e l IH]; intros t h Hh res.
  - split; [reflexivity |]. split; [exact Hh | reflexivity].
  - unfold res. cbn [length pop_global_n]. rewrite run_bind_alone.
    cbn [rev] in Hh.
    destruct (pop_global_alone this t e (rev l) h Hh) as (Hr & Hh1 & _ & _ & Hfr1).
    destruct (run (pop_global this t) no_interference h) as [[r h1] tr1].
    cbn [fst snd] in Hr, Hh1, Hfr1. subst r.
    rewrite run_bind_alone. cbn [snd].
    destruct (IH e h1 Hh1) as (Hr2 & Hh2 & Hfr2).
    destruct (run (pop_global_n this (length l) e) no_interference h1)
      as [[rs h2] tr2].
    cbn [fst snd run map] in *. subst rs.
    split; [reflexivity |].
    split; [exact Hh2 |].
    intros p Hp. rewrite Hfr2 by exact Hp. now apply Hfr1.
Qed.

(** X5: with no other thread running, pushing the elements of [l] onto a
    queue that has room for them and then calling [pop_local] as many
    times returns them all, youngest first (the reverse of the push
    order), every call returning true, and leaves the queue holding what
    it held before. *)
Theorem push_all_then_pop_local_reverses (this : Z) (l l0 : list E) (t : E)
    (h : heap E) :
  holds (h this) l0 ->
  Z.of_nat (length l0) + Z.of_nat (length l) <= n - 2 ->
  let res :=
    run (b <- push_all this l ;;
         rs <- pop_local_n this (length l) t ;;
         Ret (b, rs)) no_interference h in
  fst (fst res) = (true, map (pair true) (rev l)) /\
  holds (snd (fst res) this) l0 /\
  forall p : Z, p <> this -> snd (fst res) p = h p.
Proof.
  intros Hh Hlen res. unfold res.
  rewrite run_bind_alone.
  destruct (push_all_holds this l l0 h Hh Hlen) as (Hr1 & Hh1 & Hfr1).
  destruct (run (push_all this l) no_interference h) as [[b h1] tr1].
  cbn [fst snd] in Hr1, Hh1, Hfr1. subst b.
  rewrite run_bind_alone.
  rewrite <- (length_rev l).
  destruct (pop_local_n_holds this (rev l) l0 t h1 Hh1) as (Hr2 & Hh2 & Hfr2).
  destruct (run (pop_local_n this (length (rev l)) t) no_interference h1)
    as [[rs h2] tr2].
  cbn [fst snd run] in *. subst rs.
  split; [reflexivity |].
  split; [exact Hh2 |].
  intros p Hp. rewrite Hfr2 by exact Hp. now apply Hfr1.
Qed.

(** X6: with no other thread running, pushing the elements of [l] onto an
    empty queue and then calling [pop_global] as many times returns them
    all in push order, every call returning true, and leaves the queue
    empty. *)
Theorem push_all_then_pop_global_keeps_order (this : Z) (l : list E) (t : E)
    (h : heap E) :
  holds (h this) [] ->
  Z.of_nat (length l) <= n - 2 ->
  let res :=
    run (b <- push_all this l ;;
         rs <- pop_global_n this (length l) t ;;
         Ret (b, rs)) no_interference h in
  fst (fst res) = (true, map (pair true) l) /\
  holds (snd (fst res) this) [] /\
  forall p : Z, p <> this -> snd (fst res) p = h p.
Proof.
  intros Hh Hlen res. unfold res.
  rewrite run_bind_alone.
  destruct (push_all_holds this l [] h Hh) as (Hr1 & Hh1 & Hfr1);
    [cbn [length]; lia |].
  destruct (run (push_all this l) no_interference h) as [[b h1] tr1].
  cbn [fst snd] in Hr1, Hh1, Hfr1. subst b.
  rewrite app_nil_r in Hh1.
  rewrite run_bind_alone.
  destruct (pop_global_n_holds this l t h1 Hh1) as (Hr2 & Hh2 & Hfr2).
  destruct (run (pop_global_n this (length l) t) no_interference h1)
    as [[rs h2] tr2].
  cbn [fst snd run] in *. subst rs.
  split; [reflexivity |].
  split; [exact Hh2 |].
  intros p Hp. rewrite Hfr2 by exact Hp. now apply Hfr1.
Qed.

End Sequential.

(** ** The operations among other threads *)

Section Concurrent.

Context {E : Type}.

(** X7: [pop_global] is a thief.  Whatever the other threads do, it writes
    no [_bottom] and no slot: for every queue [p] whose [_bottom] and slots
    the other threads leave alone, they are the same after the call as
    before. *)
Theorem pop_global_is_thief (this p : Z) (t : E)
    (env : interference E) (h : heap E) :
  thieves_only p env ->
  let h' := snd (fst (run (pop_global this t) env h)) in
  _bottom (h' p) = _bottom (h p) /\ _elems (h' p) = _elems (h p).
Proof.
  intros Hth h'. unfold h'. rewrite run_pop_global.
  assert (Hupd : forall (g : heap E) (a : Age),
            _bottom (upd g this (with_age a (g this)) p) = _bottom (g p) /\
            _elems (upd g this (with_age a (g this)) p) = _elems (g p)).
  { intros g a. unfold upd.
    destruct (Z.eqb_spec p this) as [-> | _]; split; reflexivity. }
  destruct (size _ _ =? 0);
    [| destruct (Age_eqb _ _)]; cbn [fst snd];
    rewrite ?(proj1 (Hupd _ _)), ?(proj2 (Hupd _ _));
    rewrite ?(proj1 (Hth _ _)), ?(proj2 (Hth _ _)); split; reflexivity.
Qed.

(** X8: [pop_local_slow] always leaves an age word different from
    [oldAge], the tag being one more: a compare-and-swap that still
    expects [oldAge], as that of a thief that read the age word before,
    finds another word and writes nothing. *)
Theorem pop_local_slow_retires_old_age (this localBot : Z) (oldAge x : Age)
    (env : interference E) (h : heap E) :
  0 <= _tag oldAge < 2 ^ 16 ->
  let h' := snd (fst (run (pop_local_slow this localBot oldAge) env h)) in
  _tag (_age (h' this)) = (_tag oldAge + 1) mod 2 ^ 16 /\
  Age_eqb (_age (h' this)) oldAge = false /\
  run (cmpxchg this x oldAge) no_interference h' =
    (_age (h' this), h', [EvCmpxchg this x oldAge (_age (h' this))]).
Proof.
  intros Htag h'.
  assert (Hage : _age (h' this) =
                 mkAge (to_jushort localBot) (to_jushort (_tag oldAge + 1))).
  { unfold h'. rewrite run_pop_local_slow.
    destruct (localBot =? _top oldAge);
      [destruct (Age_eqb (_age (env 0%nat h this)) oldAge) |];
      cbn [fst snd]; unfold upd; rewrite Z.eqb_refl; reflexivity. }
  assert (Hne : Age_eqb (_age (h' this)) oldAge = false).
  { rewrite Hage. unfold Age_eqb, to_jushort. cbn [_tag _top].
    destruct (Z.eqb_spec ((_tag oldAge + 1) mod 2 ^ 16) (_tag oldAge)) as [Heq | _];
      [| reflexivity].
    exfalso. revert Heq. Z.div_mod_to_equations. lia. }
  split; [rewrite Hage; reflexivity |].
  split; [exact Hne |].
  unfold cmpxchg. cbn [run emit]. cbv [shift no_interference].
  rewrite Hne. reflexivity.
Qed.

(** X9: [pop_local] among thieves.  When the other threads write neither
    [_bottom] nor the slots of the queue, [pop_local] writes no slot; when
    it finds the dirty size 0 it returns false and leaves [_bottom] and
    [t]; otherwise it lowers [_bottom] by one (modulo [n]) and [t] is the
    element of the slot at the new [_bottom], the youngest one, whether it
    then returns true or, having lost that last element to a thief, false. *)
Theorem pop_local_among_thieves (this : Z) (t : E)
    (env : interference E) (h : heap E) :
  thieves_only this env ->
  let b := _bottom (h this) in
  let top := _top (_age (env 1%nat (env 0%nat h) this)) in
  let res := run (pop_local this t) env h in
  let h' := snd (fst res) in
  _elems (h' this) = _elems (h this) /\
  if dirty_size b top =? 0 then
    fst (fst res) = (false, t) /\ _bottom (h' this) = b
  else
    snd (fst (fst res)) = _elems (h this) (decrement_index b) /\
    _bottom (h' this) = decrement_index b.
Proof.
  intros Hth b top res h'.
  unfold h', res, pop_local, get_top, get_age, load_bottom, store_bottom,
    fence, load_elem.
  cbn [bind run emit fst snd]. cbv [shift Nat.add].
  rewrite (proj1 (Hth 0%nat h)). fold b. fold top.
  destruct (dirty_size b top =? 0).
  - cbn [run emit fst snd].
    rewrite ?(proj1 (Hth _ _)), ?(proj2 (Hth _ _)).
    repeat split; reflexivity.
  - cbn [bind run emit fst snd]. cbv [shift Nat.add].
    match goal with
    | |- context [if ?c then Ret _ else _] => destruct c
    end.
    + cbn [run emit fst snd].
      repeat (rewrite ?upd_same;
              cbn [with_bottom with_age _bottom _elems];
              rewrite ?(proj1 (Hth _ _)), ?(proj2 (Hth _ _))).
      repeat split; reflexivity.
    + cbn [bind run emit fst snd]. cbv [shift Nat.add].
      rewrite run_bind, run_pop_local_slow.
      cbv [shift Nat.add].
      match goal with
      | |- context [if ?c then (if _ then _ else _) else _] => destruct c
      end;
        [match goal with
         | |- context [if ?c then _ else _] => destruct c
         end |];
        cbn [run emit fst snd];
        repeat (rewrite ?upd_same;
                cbn [with_bottom with_age _bottom _elems];
                rewrite ?(proj1 (Hth _ _)), ?(proj2 (Hth _ _)));
        repeat split; reflexivity.
Qed.

End Concurrent.

Section Transient.

Context {E : Type}.

(** The run of [push] through [push_slow], with no other thread. *)
Lemma run_push_transient (this : Z) (t : E) (h : heap E) :
  dirty_size (_bottom (h this)) (_top (_age (h this))) = n - 1 ->
  let res := run (push this t) no_interference h in
  fst (fst res) = true /\
  snd (fst res) this =
    mkTaskQueue (increment_index (_bottom (h this))) (_age (h this))
      (fun j => if j =? _bottom (h this) then t else _elems (h this) j).
Proof.
  intros Hdirty res.
  assert (Hmax : max_elems = n - 2) by reflexivity.
  assert (Hm1 : to_juint (n - 1) = n - 1) by reflexivity.
  assert (Hn : n = 16384) by reflexivity.
  unfold res, push, get_top, get_age, load_bottom.
  seq_run. rewrite Hdirty, Hmax.
  destruct (Z.ltb_spec (n - 1) (n - 2)) as [Hlt | _]; [lia |].
  unfold push_slow, load_bottom, store_elem, store_bottom.
  rewrite Hm1, Z.eqb_refl.
  seq_run. rewrite !upd_same. split; reflexivity.
Qed.

(** A queue with [_bottom] equal to [top] gives nothing. *)
Lemma nothing_to_pop (this : Z) (t0 : E) (h : heap E) :
  dirty_size (_bottom (h this)) (_top (_age (h this))) = 0 ->
  fst (fst (run (pop_local this t0) no_interference h)) = (false, t0) /\
  fst (fst (run (pop_global this t0) no_interference h)) = (false, t0).
Proof.
  intros Hd0. split.
  - unfold pop_local, get_top, get_age, load_bottom.
    seq_run. rewrite Hd0. reflexivity.
  - rewrite run_pop_global. cbv [no_interference].
    rewrite size_cases, Hd0.
    destruct (Z.eqb_spec 0 (n - 1)) as [H0 | _]; [discriminate H0 |].
    reflexivity.
Qed.

(** X10: [push] on the transiently empty encoding.  With no other thread
    running, on a queue whose dirty size is [n - 1] ([_bottom] one below
    [top]), [push] takes [push_slow], stores [t] at [_bottom], advances
    [_bottom] and returns true; that brings [_bottom] up to [top], so the
    dirty size is then 0 and the next [pop_local] and the next
    [pop_global] both return false: the element just pushed is not handed
    out. *)
Theorem push_on_transient_encoding (this : Z) (t : E) (h : heap E) :
  well_formed (h this) ->
  dirty_size (_bottom (h this)) (_top (_age (h this))) = n - 1 ->
  let res := run (push this t) no_interference h in
  let h' := snd (fst res) in
  fst (fst res) = true /\
  _elems (h' this) (_bottom (h this)) = t /\
  _bottom (h' this) = _top (_age (h' this)) /\
  dirty_size (_bottom (h' this)) (_top (_age (h' this))) = 0 /\
  (forall t0 : E,
     fst (fst (run (pop_local this t0) no_interference h')) = (false, t0)) /\
  (forall t0 : E,
     fst (fst (run (pop_global this t0) no_interference h')) = (false, t0)).
Proof.
  intros (Hb & Htop & Htag) Hdirty.
  destruct (run_push_transient this t h Hdirty) as [Hres Hq].
  cbv zeta.
  generalize dependent (run (push this t) no_interference h).
  intros res Hres Hq.
  generalize dependent (snd (fst res)).
  intros h' Hq.
  assert (Hbt : increment_index (_bottom (h this)) = _top (_age (h this)))
    by mod_n.
  assert (Hd0 : dirty_size (_bottom (h' this)) (_top (_age (h' this))) = 0).
  { rewrite Hq. cbn [_bottom _age]. rewrite Hbt. mod_n. }
  split; [exact Hres |].
  split; [rewrite Hq; cbn [_elems]; now rewrite Z.eqb_refl |].
  split; [rewrite Hq; cbn [_bottom _age]; exact Hbt |].
  split; [exact Hd0 |].
  split; intros t0; apply (nothing_to_pop this t0 h' Hd0).
Qed.

End Transient.

(** ** More on the steal policies *)

Section Victims.

Context {E : Type}.
Variable randomParkAndMiller : Z -> Z * Z.

(** A draw loop that draws at least once, from a generator of non-negative
    values, ends on an index of the set. *)
Lemma draw_while_in_range (nq : Z) (cond : Z -> bool) :
  (forall seed : Z, 0 <= fst (randomParkAndMiller seed)) ->
  0 < nq ->
  forall (fuel : nat) (k seed k' seed' : Z),
    (cond k = true \/ 0 <= k < nq) ->
    draw_while randomParkAndMiller nq fuel cond k seed = Some (k', seed') ->
    0 <= k' < nq.
Proof.
  intros Hrng Hnq.
  induction fuel as [| fuel IH]; intros k seed k' seed' Hk H;
    cbn [draw_while] in H.
  - destruct (cond k) eqn:Hc; [discriminate |].
    injection H as <- _. destruct Hk as [Hk | Hk]; [discriminate | exact Hk].
  - destruct (cond k) eqn:Hc.
    + pose proof (Hrng seed) as Hr.
      destruct (randomParkAndMiller seed) as [r seed1]. cbn [fst] in Hr.
      apply (IH _ _ _ _ (or_intror (Z.rem_bound_pos r nq Hr Hnq)) H).
    + injection H as <- _. destruct Hk as [Hk | Hk]; [congruence | exact Hk].
Qed.

(** X11: the victims of [steal_best_of_2] are indices of the set.  In a
    set of more than two queues, when the generator returns non-negative
    values, the two indices drawn lie in [0 .. _n - 1], whatever
    [queue_num] is; so does the index drawn by [steal_1_random]. *)
Theorem drawn_victims_in_range (s : GenericTaskQueueSet) (fuel : nat)
    (queue_num seed k1 seed1 k2 seed2 : Z) :
  (forall seed : Z, 0 <= fst (randomParkAndMiller seed)) ->
  2 < _n s ->
  draw_while randomParkAndMiller (_n s) fuel (fun k1 => k1 =? queue_num)
             queue_num seed = Some (k1, seed1) ->
  draw_while randomParkAndMiller (_n s) fuel
             (fun k2 => (k2 =? queue_num) || (k2 =? k1))
             queue_num seed1 = Some (k2, seed2) ->
  0 <= k1 < _n s /\ 0 <= k2 < _n s.
Proof.
  intros Hrng Hn H1 H2.
  assert (Hnq : 0 < _n s) by lia.
  split.
  - eapply (draw_while_in_range (_n s) (fun k1 => k1 =? queue_num) Hrng Hnq);
      [| exact H1].
    left. apply Z.eqb_refl.
  - eapply (draw_while_in_range (_n s)
              (fun k2 => (k2 =? queue_num) || (k2 =? k1)) Hrng Hnq);
      [| exact H2].
    left. cbn beta. now rewrite Z.eqb_refl.
Qed.

End Victims.

Section BestOfAll.

Context {E : Type}.

Lemma size_range (bot top : Z) : 0 <= size bot top <= n - 2.
Proof.
  pose proof (dirty_size_range bot top) as Hr.
  assert (Hn : n = 16384) by reflexivity.
  rewrite size_cases.
  destruct (Z.eqb_spec (dirty_size bot top) (n - 1)); lia.
Qed.

Lemma to_jint_size (bot top : Z) : to_jint (size bot top) = size bot top.
Proof.
  pose proof (size_range bot top) as Hr.
  assert (Hn : n = 16384) by reflexivity.
  unfold to_jint. rewrite Z.mod_small; lia.
Qed.

(** The scan with no other thread running: it writes nothing, and its
    result is the running maximum, with the first index that reached it. *)
Lemma best_of_all_scan_alone (s : GenericTaskQueueSet) (queue_num : Z)
    (h : heap E) :
  forall (count : nat) (k best_sz : Z) (best_k : option Z),
    exists (best_sz' : Z) (best_k' : option Z) (tr : list (event E)),
      run (best_of_all_scan count s queue_num k best_sz best_k)
          no_interference h = ((best_sz', best_k'), h, tr) /\
      best_sz <= best_sz' /\
      (forall j : Z, k <= j < k + Z.of_nat count -> j <> queue_num ->
                     size_in s h j <= best_sz') /\
      ((best_sz' = best_sz /\ best_k' = best_k) \/
       (best_sz < best_sz' /\
        exists kb : Z,
          best_k' = Some kb /\ k <= kb < k + Z.of_nat count /\
          kb <> queue_num /\ size_in s h kb = best_sz' /\
          forall j : Z, k <= j < kb -> j <> queue_num ->
                        size_in s h j < best_sz')).
Proof.
  induction count as [| count IH]; intros k best_sz best_k.
  - exists best_sz, best_k, []. cbn [best_of_all_scan run].
    split; [reflexivity |]. split; [lia |].
    split; [intros j Hj; lia |]. left. split; reflexivity.
  - cbn [best_of_all_scan]. rewrite Nat2Z.inj_succ.
    destruct (Z.eqb_spec k queue_num) as [Hk | Hk].
    + destruct (IH (k + 1) best_sz best_k)
        as (bs' & bk' & tr & Hrun & Hle & Hmax & Hcase).
      exists bs', bk', tr.
      split; [exact Hrun |]. split; [exact Hle |].
      split; [intros j Hj Hne; apply Hmax; lia |].
      destruct Hcase as [Hsame | (Hlt & kb & Hbk & Hkb & Hne & Hsz & Hfirst)];
        [left; exact Hsame | right].
      split; [exact Hlt |]. exists kb.
      repeat split; try assumption; try lia.
      intros j Hj Hjne. apply Hfirst; lia.
    + unfold queue_size, get_top, get_age, load_bottom.
      cbn [bind run emit].
      change (shift 1 (shift 1 no_interference)) with (@no_interference E).
      cbv [shift no_interference].
      change (fun (_ : nat) (h0 : heap E) => h0) with (@no_interference E).
      rewrite to_jint_size. fold (size_in s h k).
      destruct (Z.ltb_spec best_sz (size_in s h k)) as [Hlt | Hge].
      * destruct (IH (k + 1) (size_in s h k) (Some k))
          as (bs' & bk' & tr & Hrun & Hle & Hmax & Hcase).
        rewrite Hrun. cbn [emit].
        eexists bs', bk', _.
        split; [reflexivity |]. split; [lia |].
        split.
        { intros j Hj Hne.
          destruct (Z.eq_dec j k) as [-> | Hjk]; [exact Hle | apply Hmax; lia]. }
        right. split; [lia |].
        destruct Hcase as [[Hbs Hbk] | (Hlt' & kb & Hbk & Hkb & Hne & Hsz & Hfirst)].
        -- exists k. subst bs' bk'.
           repeat split; try reflexivity; try assumption; try lia.
        -- exists kb.
           repeat split; try assumption; try lia.
           intros j Hj Hjne.
           destruct (Z.eq_dec j k) as [-> | Hjk]; [exact Hlt' | apply Hfirst; lia].
      * destruct (IH (k + 1) best_sz best_k)
          as (bs' & bk' & tr & Hrun & Hle & Hmax & Hcase).
        rewrite Hrun. cbn [emit].
        eexists bs', bk', _.
        split; [reflexivity |]. split; [exact Hle |].
        split.
        { intros j Hj Hne.
          destruct (Z.eq_dec j k) as [-> | Hjk]; [lia | apply Hmax; lia]. }
        destruct Hcase as [Hsame | (Hlt' & kb & Hbk & Hkb & Hne & Hsz & Hfirst)];
          [left; exact Hsame | right].
        split; [exact Hlt' |]. exists kb.
        repeat split; try assumption; try lia.
        intros j Hj Hjne.
        destruct (Z.eq_dec j k) as [-> | Hjk]; [lia | apply Hfirst; lia].
Qed.

(** X12: [steal_best_of_all] with no other thread running, in a set of
    more than two queues.  Either some queue other than the caller's
    reports a size above 0: then the call is one [pop_global] on the queue
    [kb] that reports the largest size, the first such in index order, [kb]
    being an index of the set other than [queue_num].  Or all the others
    report 0: then it returns false and the memory is as it was. *)
Theorem steal_best_of_all_alone (s : GenericTaskQueueSet)
    (queue_num seed : Z) (t : E) (h : heap E) :
  2 < _n s ->
  (exists kb : Z,
     0 <= kb < _n s /\ kb <> queue_num /\ 0 < size_in s h kb /\
     (forall j : Z, 0 <= j < _n s -> j <> queue_num ->
                    size_in s h j <= size_in s h kb) /\
     (forall j : Z, 0 <= j < kb -> j <> queue_num ->
                    size_in s h j < size_in s h kb) /\
     fst (run (steal_best_of_all s queue_num seed t) no_interference h) =
       (Some (fst (fst (run (pop_global (_queues s kb) t) no_interference h)),
              seed),
        snd (fst (run (pop_global (_queues s kb) t) no_interference h))))
  \/
  ((forall j : Z, 0 <= j < _n s -> j <> queue_num -> size_in s h j = 0) /\
   fst (run (steal_best_of_all s queue_num seed t) no_interference h) =
     (Some (false, t, seed), h)).
Proof.
  intros Hn. unfold steal_best_of_all.
  destruct (Z.ltb_spec 2 (_n s)) as [_ | Hle]; [| lia].
  rewrite run_bind_alone.
  destruct (best_of_all_scan_alone s queue_num h (Z.to_nat (_n s)) 0 0 None)
    as (bs' & bk' & tr & Hrun & Hge & Hmax & Hcase).
  rewrite Hrun. rewrite Z2Nat.id in * by lia.
  destruct Hcase as [[-> ->] | (Hlt & kb & -> & Hkb & Hne & Hsz & Hfirst)].
  - right. cbn [Z.ltb Z.compare run fst snd].
    split; [| reflexivity].
    intros j Hj Hjne.
    pose proof (Hmax j ltac:(lia) Hjne) as Hup.
    pose proof (size_range (_bottom (h (_queues s j)))
                  (_top (_age (h (_queues s j))))) as Hlow.
    unfold size_in in *. lia.
  - left. exists kb.
    destruct (Z.ltb_spec 0 bs') as [_ | Hbad]; [| lia].
    rewrite run_bind_alone.
    destruct (run (pop_global (_queues s kb) t) no_interference h)
      as [[r h2] tr2].
    cbn [run fst snd].
    subst bs'.
    split; [lia |]. split; [exact Hne |]. split; [lia |].
    split; [intros j Hj Hjne; apply Hmax; [lia | exact Hjne] |].
    split; [intros j Hj Hjne; apply Hfirst; [lia | exact Hjne] |].
    reflexivity.
Qed.



End BestOfAll.

(** ** Two threads, access by access *)

Section Race.

Context {E : Type}.

(** One access, then the rest alone: the same as the whole alone. *)
Lemma step_run {R : Type} (p p' : prog E R) (h h' : heap E) :
  step p h = Some (p', h') ->
  fst (run p no_interference h) = fst (run p' no_interference h').
Proof.
  destruct p; cbn [step]; intros H; try discriminate;
    injection H as <- <-; cbn [run];
    change (shift 1 no_interference) with (@no_interference E);
    cbv [no_interference];
    match goal with
    | |- context [run ?q ?e ?g] => destruct (run q e g) as [[? ?] ?]
    end; reflexivity.
Qed.

(** Once the first thread has returned, the second runs alone. *)
Lemma interleave_ret_l {A B : Type} (r1 : A) :
  forall (sched : list bool) (p2 : prog E B) (h : heap E)
         (r1' : A) (r2 : B) (h' : heap E),
    interleave sched (Ret r1) p2 h = (Ret r1', Ret r2, h') ->
    r1 = r1' /\ fst (run p2 no_interference h) = (r2, h').
Proof.
  induction sched as [| [|] sched IH]; intros p2 h r1' r2 h' H;
    cbn [interleave step] in H.
  - injection H as -> -> ->. split; reflexivity.
  - apply IH. exact H.
  - destruct (step p2 h) as [[p2' h2] |] eqn:Hstep.
    + destruct (IH _ _ _ _ _ H) as [-> Hrun]. split; [reflexivity |].
      rewrite (step_run _ _ _ _ Hstep). exact Hrun.
    + apply IH. exact H.
Qed.

(** Once the second thread has returned, the first runs alone. *)
Lemma interleave_ret_r {A B : Type} (r2 : B) :
  forall (sched : list bool) (p1 : prog E A) (h : heap E)
         (r1 : A) (r2' : B) (h' : heap E),
    interleave sched p1 (Ret r2) h = (Ret r1, Ret r2', h') ->
    r2 = r2' /\ fst (run p1 no_interference h) = (r1, h').
Proof.
  induction sched as [| [|] sched IH]; intros p1 h r1 r2' h' H;
    cbn [interleave step] in H.
  - injection H as -> -> ->. split; reflexivity.
  - destruct (step p1 h) as [[p1' h2] |] eqn:Hstep.
    + destruct (IH _ _ _ _ _ H) as [-> Hrun]. split; [reflexivity |].
      rewrite (step_run _ _ _ _ Hstep). exact Hrun.
    + apply IH. exact H.
  - apply IH. exact H.
Qed.

(** Indices and sizes around a queue of one element. *)
Lemma race_facts (b t0 tag : Z) :
  0 <= b < n -> 0 <= t0 < n -> 0 <= tag < 2 ^ 16 ->
  dirty_size b t0 = 1 ->
  (dirty_size b b = 0 /\ dirty_size t0 t0 = 0 /\
   decrement_index b = t0 /\
   size t0 t0 = 0 /\ size t0 b = 0 /\ size b t0 = 1 /\ size b b = 0) /\
  (to_jushort t0 = t0 /\ to_jushort (increment_index t0) = b /\
   (t0 =? b) = false /\ (b =? t0) = false /\
   (to_jushort (tag + 1) =? tag) = false /\
   (b - 1 - Z.of_nat 0) mod n = t0).
Proof.
  intros Hb Ht Htag Hd.
  assert (Hn : n = 16384) by reflexivity.
  assert (Hdec : decrement_index b = t0) by mod_n.
  assert (Hne : b <> t0) by (intros ->; revert Hd; mod_n).
  assert (Hd1 : dirty_size t0 b = n - 1) by mod_n.
  assert (Hd0 : forall x, dirty_size x x = 0) by (intros x; mod_n).
  split.
  - repeat split; try apply Hd0; try exact Hdec;
      rewrite size_cases, ?Hd0, ?Hd1, ?Hd; try reflexivity.
  - repeat split.
    + unfold to_jushort. apply Z.mod_small. lia.
    + rewrite jushort_increment_index. mod_n.
    + apply Z.eqb_neq. congruence.
    + apply Z.eqb_neq. exact Hne.
    + apply Z.eqb_neq. unfold to_jushort. Z.div_mod_to_equations. lia.
    + cbn [Z.of_nat]. mod_n.
Qed.


Ltac race_norm H facts :=
  repeat progress
    (cbn [interleave step run emit fst snd bind
          push push_slow pop_local pop_global pop_local_slow
          get_top get_age load_bottom store_bottom store_elem fence
          load_elem set_age
          cmpxchg with_bottom with_age with_elem
          _bottom _age _elems _top _tag andb Age_eqb] in H;
     cbv [shift no_interference] in H;
     try unfold pop_local_slow in H;
     try unfold Age_eqb in H;
     facts H).

Ltac race_explore H facts :=
  race_norm H facts;
  lazymatch type of H with
  | interleave _ (Ret _) _ _ = _ =>
      apply interleave_ret_l in H; destruct H as [<- H];
      race_norm H facts; injection H as <- <-
  | interleave _ _ (Ret _) _ = _ =>
      apply interleave_ret_r in H; destruct H as [<- H];
      race_norm H facts; injection H as <- <-
  | interleave ?s _ _ _ = _ =>
      destruct s as [| [|] ?];
      [ discriminate H | race_explore H facts | race_explore H facts ]
  end.

(** X14: the owner and a thief race for the last element.  On a queue
    that holds the single element [e], run [pop_local] and [pop_global]
    under any schedule of their accesses till both have returned: exactly
    one of the two returns true, with [e]; the queue is left with
    [_bottom == top] and its slots as they were. *)
Theorem last_element_race (this : Z) (t1 t2 e : E) (h : heap E)
    (sched : list bool) (r1 r2 : bool * E) (h' : heap E) :
  holds (h this) [e] ->
  interleave sched (pop_local this t1) (pop_global this t2) h
    = (Ret r1, Ret r2, h') ->
  ((r1 = (true, e) /\ fst r2 = false) \/ (fst r1 = false /\ r2 = (true, e))) /\
  _bottom (h' this) = _top (_age (h' this)) /\
  _elems (h' this) = _elems (h this).
Proof.
  intros (Hwf & _ & Hdirty & Hslots) H.
  destruct Hwf as (Hb & Htop & Htag).
  pose proof (Hslots 0%nat e eq_refl) as He.
  destruct (h this) as [b [t0 tag] el] eqn:Hq.
  cbn [_bottom _age _top _tag _elems] in *.
  change (Z.of_nat (length [e])) with 1 in Hdirty.
  destruct (race_facts b t0 tag Hb Htop Htag Hdirty)
    as ((F1 & F2 & F3 & F4 & F5 & F6 & F7) & (G1 & G2 & G3 & G4 & G5 & G6)).
  rewrite G6 in He. clear Hslots G6.
  destruct (b =? 0) eqn:Hb0.
  all: let facts H :=
         rewrite ?upd_same, ?Hq, ?Hdirty, ?F1, ?F2, ?F3, ?F4, ?F5, ?F6, ?F7,
           ?G1, ?G2, ?G3, ?G4, ?G5, ?He, ?Hb0, ?Z.eqb_refl,
           ?Bool.andb_false_r in H;
         change (1 =? 0) with false in H;
         change (0 =? 0) with true in H;
         change (0 <? 0) with false in H in
       race_explore H facts.
  all: rewrite ?upd_same, ?Hq.
  all: cbn [fst snd with_bottom with_age with_elem _bottom _age _elems _top _tag].
  all: try (split;
            [ first [ left; split; reflexivity | right; split; reflexivity ]
            | split; reflexivity ]).
Qed.

(** Indices and sizes around the two oldest elements of a queue. *)
Lemma thieves_facts (b t0 m : Z) :
  0 <= b < n -> 0 <= t0 < n -> 0 <= m -> m + 1 <= n - 2 ->
  dirty_size b t0 = m + 1 ->
  let t1 := (t0 + 1) mod n in
  (size b t0 =? 0) = false /\
  size b t1 = m /\
  to_jushort (increment_index t0) = t1 /\
  to_jushort (increment_index t1) = (t1 + 1) mod n /\
  (t1 =? t0) = false /\
  (b - 1 - m) mod n = t0 /\
  (0 < m -> (b - 1 - (m - 1)) mod n = t1).
Proof.
  intros Hb Ht Hm Hcap Hd t1. unfold t1.
  assert (Hn : n = 16384) by reflexivity.
  assert (Hd1 : dirty_size b ((t0 + 1) mod n) = m) by mod_n.
  repeat split.
  - rewrite size_cases, Hd.
    destruct (Z.eqb_spec (m + 1) (n - 1)); [lia |].
    apply Z.eqb_neq. lia.
  - rewrite size_cases, Hd1.
    destruct (Z.eqb_spec m (n - 1)); [lia | reflexivity].
  - rewrite jushort_increment_index. reflexivity.
  - rewrite jushort_increment_index. reflexivity.
  - apply Z.eqb_neq. mod_n.
  - mod_n.
  - intros Hpos. mod_n.
Qed.

(** X15: two thieves.  On a queue that holds [l ++ [e]], run two calls
    of [pop_global] under any schedule of their accesses till both have
    returned.  One of them returns true with [e], the oldest element; the
    other returns false, or true with the next oldest element: the two
    never hand out the same slot.  [_bottom] and the slots are as they
    were. *)
Theorem two_thieves (this : Z) (t1 t2 e : E) (l : list E) (h : heap E)
    (sched : list bool) (r1 r2 : bool * E) (h' : heap E) :
  holds (h this) (l ++ [e]) ->
  interleave sched (pop_global this t1) (pop_global this t2) h
    = (Ret r1, Ret r2, h') ->
  ((r1 = (true, e) /\
    (fst r2 = false \/ exists l' e2, l = l' ++ [e2] /\ r2 = (true, e2)))
   \/
   (r2 = (true, e) /\
    (fst r1 = false \/ exists l' e2, l = l' ++ [e2] /\ r1 = (true, e2)))) /\
  _bottom (h' this) = _bottom (h this) /\
  _elems (h' this) = _elems (h this).
Proof.
  intros (Hwf & Hcap & Hdirty & Hslots) H.
  destruct Hwf as (Hb & Htop & Htag).
  rewrite length_app in Hcap, Hdirty. cbn [length] in Hcap, Hdirty.
  rewrite Nat2Z.inj_add in Hcap, Hdirty.
  change (Z.of_nat 1) with 1 in Hcap, Hdirty.
  pose proof (Hslots (length l) e) as He.
  rewrite nth_error_app2, Nat.sub_diag in He by lia.
  specialize (He eq_refl).
  destruct (h this) as [b [t0 tag] el] eqn:Hq.
  cbn [_bottom _age _top _tag _elems] in *.
  destruct (thieves_facts b t0 (Z.of_nat (length l)) Hb Htop ltac:(lia) Hcap Hdirty)
    as (F1 & F2 & F3 & F4 & F5 & F6 & F7).
  rewrite F6 in He.
  set (t1' := (t0 + 1) mod n) in *.
  assert (Hl : l = [] \/ exists l' e2, l = l' ++ [e2]).
  { clear. induction l as [| e2 l' _] using rev_ind;
      [left; reflexivity | right; eauto]. }
  destruct Hl as [-> | (l' & e2 & ->)].
  - (* one element: the second thief finds the queue empty *)
    change (Z.of_nat (length (@nil E))) with 0 in *.
    destruct (t1' =? 0) eqn:Ht1.
    all: let facts H :=
           rewrite ?upd_same, ?Hq, ?F1, ?F2, ?F3, ?F5, ?He, ?Ht1, ?Z.eqb_refl,
             ?Bool.andb_false_r in H;
           change (0 =? 0) with true in H in
         race_explore H facts.
    all: rewrite ?upd_same, ?Hq.
    all: cbn [fst snd with_bottom with_age with_elem _bottom _age _elems _top _tag].
    all: split; [| split; reflexivity].
    all: first [ left; split; [reflexivity | left; reflexivity]
               | right; split; [reflexivity | left; reflexivity] ].
  - (* two elements or more: the second thief takes the next one *)
    pose proof (Hslots (length l') e2) as He2.
    rewrite nth_error_app1 in He2 by (rewrite length_app; cbn [length]; lia).
    rewrite nth_error_app2, Nat.sub_diag in He2 by lia.
    specialize (He2 eq_refl).
    rewrite length_app in *. cbn [length] in *.
    rewrite Nat2Z.inj_add in *. change (Z.of_nat 1) with 1 in *.
    replace (Z.of_nat (length l')) with (Z.of_nat (length l') + 1 - 1) in He2
      by lia.
    rewrite F7 in He2 by lia.
    assert (F2' : (size b t1' =? 0) = false)
      by (rewrite F2; apply Z.eqb_neq; lia).
    clear Hslots F6 F7.
    destruct (t1' =? 0) eqn:Ht1; destruct ((t1' + 1) mod n =? 0) eqn:Ht2.
    all: let facts H :=
           rewrite ?upd_same, ?Hq, ?F1, ?F2', ?F3, ?F4, ?F5, ?He, ?He2,
             ?Ht1, ?Ht2, ?Z.eqb_refl, ?Bool.andb_false_r in H in
         race_explore H facts.
    all: rewrite ?upd_same, ?Hq.
    all: cbn [fst snd with_bottom with_age with_elem _bottom _age _elems _top _tag].
    all: split; [| split; reflexivity].
    all: first
           [ left; split; [reflexivity | left; reflexivity]
           | left; split; [reflexivity
                          | right; exists l', e2; split; reflexivity]
           | right; split; [reflexivity | left; reflexivity]
           | right; split; [reflexivity
                           | right; exists l', e2; split; reflexivity] ].
Qed.

(** The queue after a push and a steal, whatever their order. *)
Lemma holds_after_push_and_steal (b t0 tag tg : Z) (el : Z -> E) (t e : E)
    (l : list E) :
  holds (mkTaskQueue b (mkAge t0 tag) el) (l ++ [e]) ->
  Z.of_nat (length l) + 1 < n - 2 ->
  0 <= tg < 2 ^ 16 ->
  holds (mkTaskQueue (increment_index b) (mkAge ((t0 + 1) mod n) tg)
           (fun j => if j =? b then t else el j)) (t :: l).
Proof.
  intros (Hwf & Hcap & Hdirty & Hslots) Hlen Htg.
  destruct Hwf as (Hb & Htop & Htag).
  cbn [_bottom _age _top _tag _elems] in *.
  rewrite length_app in Hcap, Hdirty. cbn [length] in Hcap, Hdirty.
  rewrite Nat2Z.inj_add in Hcap, Hdirty.
  change (Z.of_nat 1) with 1 in Hcap, Hdirty.
  unfold holds, well_formed. cbn [_bottom _age _top _tag _elems length].
  rewrite Nat2Z.inj_succ.
  split; [repeat split; try tauto; mod_n |].
  split; [lia |].
  split; [mod_n |].
  intros i e' Hnth.
  destruct i as [| i]; cbn [nth_error] in Hnth.
  - injection Hnth as <-.
    destruct (Z.eqb_spec ((increment_index b - 1 - Z.of_nat 0) mod n) b)
      as [_ | Hne]; [reflexivity |].
    exfalso. apply Hne. mod_n.
  - assert (Hi : (i < length l)%nat)
      by (apply nth_error_Some; rewrite Hnth; discriminate).
    destruct (Z.eqb_spec ((increment_index b - 1 - Z.of_nat (S i)) mod n) b)
      as [Heq | _].
    + exfalso. revert Heq. mod_n.
    + rewrite <- (Hslots i e').
      * f_equal. mod_n.
      * rewrite nth_error_app1 by exact Hi. exact Hnth.
Qed.

(** Indices and sizes around a push and a steal. *)
Lemma push_steal_facts (b t0 m : Z) :
  0 <= b < n -> 0 <= t0 < n -> 0 <= m -> m + 1 < n - 2 ->
  dirty_size b t0 = m + 1 ->
  let t1 := (t0 + 1) mod n in
  (dirty_size b t0 <? max_elems) = true /\
  (dirty_size b t1 <? max_elems) = true /\
  (size b t0 =? 0) = false /\
  (size (increment_index b) t0 =? 0) = false /\
  to_jushort (increment_index t0) = t1 /\
  (t0 =? b) = false /\
  (b - 1 - m) mod n = t0.
Proof.
  intros Hb Ht Hm Hcap Hd t1. unfold t1.
  assert (Hn : n = 16384) by reflexivity.
  assert (Hmax : max_elems = n - 2) by reflexivity.
  assert (Hd1 : dirty_size b ((t0 + 1) mod n) = m) by mod_n.
  assert (Hd2 : dirty_size (increment_index b) t0 = m + 2) by mod_n.
  repeat split.
  - rewrite Hd, Hmax. apply Z.ltb_lt. lia.
  - rewrite Hd1, Hmax. apply Z.ltb_lt. lia.
  - rewrite size_cases, Hd.
    destruct (Z.eqb_spec (m + 1) (n - 1)); [lia |]. apply Z.eqb_neq. lia.
  - rewrite size_cases, Hd2.
    destruct (Z.eqb_spec (m + 2) (n - 1)); [lia |]. apply Z.eqb_neq. lia.
  - rewrite jushort_increment_index. reflexivity.
  - apply Z.eqb_neq. intros ->. revert Hd. mod_n.
  - mod_n.
Qed.

(** X16: the owner pushes while a thief steals.  On a queue that holds
    [l ++ [e]] with room for one more, run [push] and [pop_global] under
    any schedule of their accesses till both have returned: [push]
    returns true, [pop_global] returns true with [e], the oldest element,
    and the queue is left holding [t :: l]. *)
Theorem push_while_stolen (this : Z) (t t2 e : E) (l : list E) (h : heap E)
    (sched : list bool) (r1 : bool) (r2 : bool * E) (h' : heap E) :
  holds (h this) (l ++ [e]) ->
  Z.of_nat (length l) + 1 < n - 2 ->
  interleave sched (push this t) (pop_global this t2) h
    = (Ret r1, Ret r2, h') ->
  r1 = true /\ r2 = (true, e) /\ holds (h' this) (t :: l).
Proof.
  intros Hh Hlen H.
  destruct (h this) as [b [t0 tag] el] eqn:Hq.
  pose proof (holds_after_push_and_steal b t0 tag tag el t e l Hh Hlen) as Hfin1.
  pose proof (holds_after_push_and_steal b t0 tag (to_jushort (tag + 1)) el t e l
                Hh Hlen) as Hfin2.
  destruct Hh as (Hwf & Hcap & Hdirty & Hslots).
  destruct Hwf as (Hb & Htop & Htag).
  cbn [_bottom _age _top _tag _elems] in *.
  rewrite length_app in Hcap, Hdirty. cbn [length] in Hcap, Hdirty.
  rewrite Nat2Z.inj_add in Hcap, Hdirty.
  change (Z.of_nat 1) with 1 in Hcap, Hdirty.
  pose proof (Hslots (length l) e) as He.
  rewrite nth_error_app2, Nat.sub_diag in He by lia.
  specialize (He eq_refl).
  destruct (push_steal_facts b t0 (Z.of_nat (length l)) Hb Htop ltac:(lia)
              Hlen Hdirty) as (F1 & F2 & F3 & F4 & F5 & F6 & F7).
  rewrite F7 in He. clear Hslots F7.
  specialize (Hfin1 Htag).
  assert (Htag' : 0 <= to_jushort (tag + 1) < 2 ^ 16)
    by (unfold to_jushort; apply Z.mod_pos_bound; lia).
  specialize (Hfin2 Htag').
  set (t1' := (t0 + 1) mod n) in *.
  destruct (t1' =? 0) eqn:Ht1.
  all: let facts H :=
         rewrite ?upd_same, ?Hq, ?F1, ?F2, ?F3, ?F4, ?F5, ?F6, ?He, ?Ht1,
           ?Z.eqb_refl, ?Bool.andb_false_r in H in
       race_explore H facts.
  all: rewrite ?upd_same, ?Hq.
  all: cbn [fst snd with_bottom with_age with_elem _bottom _age _elems _top _tag].
  all: split; [reflexivity | split; [reflexivity |]].
  all: first [exact Hfin1 | exact Hfin2].
Qed.

(** The queue after a local pop and a steal, whatever their order. *)
Lemma holds_after_pop_and_steal (b t0 tag tg : Z) (el : Z -> E) (y o : E)
    (l : list E) :
  holds (mkTaskQueue b (mkAge t0 tag) el) (y :: l ++ [o]) ->
  0 <= tg < 2 ^ 16 ->
  holds (mkTaskQueue (decrement_index b) (mkAge ((t0 + 1) mod n) tg) el) l.
Proof.
  intros (Hwf & Hcap & Hdirty & Hslots) Htg.
  destruct Hwf as (Hb & Htop & Htag).
  cbn [_bottom _age _top _tag _elems] in *.
  cbn [length] in Hcap, Hdirty.
  rewrite length_app in Hcap, Hdirty. cbn [length] in Hcap, Hdirty.
  rewrite Nat2Z.inj_succ, Nat2Z.inj_add in Hcap, Hdirty.
  change (Z.of_nat 1) with 1 in Hcap, Hdirty.
  unfold holds, well_formed. cbn [_bottom _age _top _tag _elems].
  split; [repeat split; try tauto; mod_n |].
  split; [lia |].
  split; [mod_n |].
  intros i e' Hnth.
  assert (Hi : (i < length l)%nat)
    by (apply nth_error_Some; rewrite Hnth; discriminate).
  rewrite <- (Hslots (S i) e').
  - f_equal. mod_n.
  - cbn [nth_error]. rewrite nth_error_app1 by exact Hi. exact Hnth.
Qed.

(** Indices and sizes around a local pop and a steal. *)
Lemma pop_steal_facts (b t0 m : Z) :
  0 <= b < n -> 0 <= t0 < n -> 0 <= m -> m + 2 <= n - 2 ->
  dirty_size b t0 = m + 2 ->
  let t1 := (t0 + 1) mod n in
  let b' := decrement_index b in
  ((dirty_size b t0 =? 0) = false /\
   (dirty_size b t1 =? 0) = false /\
   (0 <? size b' t0) = true /\
   size b' t1 = m /\
   (m = 0 -> b' = t1)) /\
  ((size b t0 =? 0) = false /\
   (size b' t0 =? 0) = false /\
   to_jushort (increment_index t0) = t1 /\
   to_jushort t1 = t1 /\
   (b - 1 - Z.of_nat 0) mod n = b' /\
   (b - 1 - (m + 1)) mod n = t0).
Proof.
  intros Hb Ht Hm Hcap Hd t1 b'. unfold t1, b'.
  assert (Hn : n = 16384) by reflexivity.
  assert (Hd1 : dirty_size b ((t0 + 1) mod n) = m + 1) by mod_n.
  assert (Hd2 : dirty_size (decrement_index b) t0 = m + 1) by mod_n.
  assert (Hd3 : dirty_size (decrement_index b) ((t0 + 1) mod n) = m) by mod_n.
  split; repeat split.
  - rewrite Hd. apply Z.eqb_neq. lia.
  - rewrite Hd1. apply Z.eqb_neq. lia.
  - rewrite size_cases, Hd2.
    destruct (Z.eqb_spec (m + 1) (n - 1)); [lia |]. apply Z.ltb_lt. lia.
  - rewrite size_cases, Hd3.
    destruct (Z.eqb_spec m (n - 1)); [lia | reflexivity].
  - intros ->. mod_n.
  - rewrite size_cases, Hd.
    destruct (Z.eqb_spec (m + 2) (n - 1)); [lia |]. apply Z.eqb_neq. lia.
  - rewrite size_cases, Hd2.
    destruct (Z.eqb_spec (m + 1) (n - 1)); [lia |]. apply Z.eqb_neq. lia.
  - rewrite jushort_increment_index. reflexivity.
  - unfold to_jushort. apply Z.mod_small.
    assert (0 <= (t0 + 1) mod n < n) by (apply Z.mod_pos_bound; lia). lia.
  - cbn [Z.of_nat]. mod_n.
  - mod_n.
Qed.

(** X17: the owner pops while a thief steals, on a queue of two elements
    or more.  On a queue that holds [y :: l ++ [o]], run [pop_local] and
    [pop_global] under any schedule of their accesses till both have
    returned: [pop_local] returns true with [y], the youngest element,
    [pop_global] returns true with [o], the oldest one, and the queue is
    left holding [l]. *)
Theorem pop_local_while_stolen (this : Z) (t1 t2 y o : E) (l : list E)
    (h : heap E) (sched : list bool) (r1 r2 : bool * E) (h' : heap E) :
  holds (h this) (y :: l ++ [o]) ->
  interleave sched (pop_local this t1) (pop_global this t2) h
    = (Ret r1, Ret r2, h') ->
  r1 = (true, y) /\ r2 = (true, o) /\ holds (h' this) l.
Proof.
  intros Hh H.
  destruct (h this) as [b [t0 tag] el] eqn:Hq.
  assert (Hfin : forall tg, 0 <= tg < 2 ^ 16 ->
            holds (mkTaskQueue (decrement_index b) (mkAge ((t0 + 1) mod n) tg) el) l)
    by (intros tg; apply (holds_after_pop_and_steal b t0 tag tg el y o l Hh)).
  destruct Hh as (Hwf & Hcap & Hdirty & Hslots).
  destruct Hwf as (Hb & Htop & Htag).
  cbn [_bottom _age _top _tag _elems] in *.
  cbn [length] in Hcap, Hdirty.
  rewrite length_app in Hcap, Hdirty. cbn [length] in Hcap, Hdirty.
  rewrite Nat2Z.inj_succ, Nat2Z.inj_add in Hcap, Hdirty.
  change (Z.of_nat 1) with 1 in Hcap, Hdirty.
  pose proof (Hslots 0%nat y eq_refl) as Hy.
  pose proof (Hslots (S (length l)) o) as Ho.
  cbn [nth_error] in Ho.
  rewrite nth_error_app2, Nat.sub_diag in Ho by lia.
  specialize (Ho eq_refl).
  rewrite Nat2Z.inj_succ in Ho.
  destruct (pop_steal_facts b t0 (Z.of_nat (length l)) Hb Htop ltac:(lia)
              ltac:(lia) ltac:(lia))
    as ((F1 & F2 & F3 & F4 & F5) & (G1 & G2 & G3 & G4 & G5 & G6)).
  rewrite G5 in Hy.
  replace (b - 1 - Z.succ (Z.of_nat (length l)))
    with (b - 1 - (Z.of_nat (length l) + 1)) in Ho by lia.
  rewrite G6 in Ho. clear Hslots G5 G6.
  assert (Hj : forall x, 0 <= to_jushort x < 2 ^ 16)
    by (intros x; unfold to_jushort; apply Z.mod_pos_bound; lia).
  set (t1' := (t0 + 1) mod n) in *.
  assert (Hb' : exists b', decrement_index b = b') by eauto.
  destruct Hb' as [b' Hb'].
  rewrite Hb' in *.
  destruct l as [| e1 l].
  - (* two elements: the owner may have to take the slow path, and wins *)
    cbn [length] in F4, F5. change (Z.of_nat 0) with 0 in F4, F5.
    specialize (F5 eq_refl).
    assert (F4b : (0 <? size b' t1') = false) by (rewrite F4; reflexivity).
    subst b'.
    destruct (t1' =? 0) eqn:Ht1.
    all: let facts H :=
           rewrite ?upd_same, ?Hq, ?Hb', ?F1, ?F2, ?F3, ?F4b, ?G1, ?G2, ?G3,
             ?G4, ?Hy, ?Ho, ?Ht1, ?Z.eqb_refl, ?Bool.andb_false_r in H in
         race_explore H facts.
    all: rewrite ?upd_same, ?Hq.
    all: cbn [fst snd with_bottom with_age with_elem _bottom _age _elems _top _tag].
    all: split; [reflexivity | split; [reflexivity |]].
    all: apply Hfin; first [exact Htag | apply Hj].
  - (* more: both take their element without meeting *)
    cbn [length] in F4. rewrite Nat2Z.inj_succ in F4.
    assert (F4b : (0 <? size b' t1') = true)
      by (rewrite F4; apply Z.ltb_lt; lia).
    destruct (t1' =? 0) eqn:Ht1.
    all: let facts H :=
           rewrite ?upd_same, ?Hq, ?Hb', ?F1, ?F2, ?F3, ?F4b, ?G1, ?G2, ?G3,
             ?G4, ?Hy, ?Ho, ?Ht1, ?Z.eqb_refl, ?Bool.andb_false_r in H in
         race_explore H facts.
    all: rewrite ?upd_same, ?Hq.
    all: cbn [fst snd with_bottom with_age with_elem _bottom _age _elems _top _tag].
    all: split; [reflexivity | split; [reflexivity |]].
    all: apply Hfin; first [exact Htag | apply Hj].
Qed.

End Race.

(** ** What a caller sees *)

Section Callers.

Context {E : Type}.

(** X18: [size()] counts.  With no other thread running, on a queue that
    holds [l], [size()] and [dirty_size()] both return the number of
    elements of [l], and write nothing. *)
Theorem queue_size_counts (this : Z) (l : list E) (h : heap E) :
  holds (h this) l ->
  fst (run (queue_size this) no_interference h) = (Z.of_nat (length l), h) /\
  fst (run (queue_dirty_size this) no_interference h) = (Z.of_nat (length l), h).
Proof.
  intros (_ & Hcap & Hdirty & _).
  unfold queue_size, queue_dirty_size, get_top, get_age, load_bottom.
  seq_run. rewrite size_cases, Hdirty.
  destruct (Z.eqb_spec (Z.of_nat (length l)) (n - 1)) as [Heq | _]; [lia |].
  split; reflexivity.
Qed.

(** [pop_global] on an empty queue, with no other thread. *)
Lemma pop_global_empty_alone (this : Z) (t : E) (h : heap E) :
  holds (h this) [] ->
  fst (run (pop_global this t) no_interference h) = ((false, t), h).
Proof.
  intros (_ & _ & Hdirty & _).
  rewrite run_pop_global. cbv [no_interference].
  rewrite size_cases, Hdirty. reflexivity.
Qed.

(** X19: stealing in a set of two queues.  With no other thread running,
    [steal] by a queue of a set of two takes the oldest element of the
    other queue when that one holds any, at the first attempt; when the
    other queue is empty it returns false after its four attempts and the
    memory is as it was.  The seed is not used. *)
Theorem steal_in_a_set_of_two (randomParkAndMiller : Z -> Z * Z)
    (fuel : nat) (s : GenericTaskQueueSet)
    (queue_num seed : Z) (t : E) (l : list E) (h : heap E) :
  _n s = 2 ->
  0 <= queue_num < 2 ->
  holds (h (_queues s (1 - queue_num))) l ->
  let other := _queues s (1 - queue_num) in
  let res := run (steal randomParkAndMiller fuel s queue_num seed t)
                 no_interference h in
  (l = [] /\ fst res = (Some (false, t, seed), h))
  \/
  (exists (l' : list E) (e : E),
     l = l' ++ [e] /\
     fst (fst res) = Some (true, e, seed) /\
     holds (snd (fst res) other) l' /\
     forall p : Z, p <> other -> snd (fst res) p = h p).
Proof.
  intros Hn Hq Hh other res. unfold other in *. clear other.
  assert (Hcount : Z.to_nat (to_jint (2 * _n s)) = 4%nat) by (rewrite Hn; reflexivity).
  assert (Hk : Z.rem (to_jint (queue_num + 1)) 2 = 1 - queue_num).
  { assert (Hc : queue_num = 0 \/ queue_num = 1) by lia.
    destruct Hc as [-> | ->]; reflexivity. }
  assert (Hb2 : forall (seed' : Z) (t' : E),
            steal_best_of_2 randomParkAndMiller fuel s queue_num seed' t' =
            (r <- pop_global (_queues s (1 - queue_num)) t' ;;
             Ret (Some (r, seed')))).
  { intros seed' t'. unfold steal_best_of_2. rewrite Hn.
    cbn [Z.ltb Z.eqb Z.compare Pos.compare Pos.compare_cont Pos.eqb].
    cbv zeta. rewrite Hk. reflexivity. }
  unfold res, steal. rewrite Hcount.
  assert (Hl : l = [] \/ exists l' e, l = l' ++ [e]).
  { clear. induction l as [| e l' _] using rev_ind;
      [left; reflexivity | right; eauto]. }
  destruct Hl as [-> | (l' & e & ->)].
  - left. split; [reflexivity |].
    pose proof (pop_global_empty_alone (_queues s (1 - queue_num)) t h Hh) as Hp.
    generalize 4%nat. intros count.
    induction count as [| count IH]; [reflexivity |].
    cbn [steal_loop].
    rewrite run_bind_alone, Hb2, run_bind_alone.
    destruct (run (pop_global (_queues s (1 - queue_num)) t) no_interference h)
      as [[r h1] tr1].
    cbn [fst] in Hp. injection Hp as -> ->.
    cbn [run app fst snd].
    destruct (run (steal_loop randomParkAndMiller count fuel s queue_num seed t)
                no_interference h) as [[r2 h2] tr2].
    cbn [fst] in IH. injection IH as -> ->. reflexivity.
  - right. exists l', e. split; [reflexivity |].
    destruct (pop_global_alone (_queues s (1 - queue_num)) t e l' h Hh)
      as (Hr & Hh1 & _ & _ & Hfr).
    cbn [steal_loop].
    rewrite run_bind_alone, Hb2, run_bind_alone.
    destruct (run (pop_global (_queues s (1 - queue_num)) t) no_interference h)
      as [[r h1] tr1].
    cbn [fst snd] in Hr, Hh1, Hfr. subst r.
    cbn [run app fst snd].
    split; [reflexivity |]. split; [exact Hh1 | exact Hfr].
Qed.

(** The age word after the owner took the last element. *)
Lemma pop_local_last_age (this : Z) (t e : E) (h : heap E) :
  holds (h this) [e] ->
  _age (snd (fst (run (pop_local this t) no_interference h)) this) =
  mkAge (_top (_age (h this))) (to_jushort (_tag (_age (h this)) + 1)).
Proof.
  intros (Hwf & Hcap & Hdirty & Hslots).
  destruct Hwf as (Hb & Htop & Htag).
  change (Z.of_nat (length [e])) with 1 in Hdirty.
  assert (Hdec : decrement_index (_bottom (h this)) = _top (_age (h this)))
    by mod_n.
  destruct (canonical_empty (_top (_age (h this)))) as [Hsz _].
  assert (Hshort : to_jushort (_top (_age (h this))) = _top (_age (h this))).
  { unfold to_jushort. apply Z.mod_small.
    assert (Hn : n = 16384) by reflexivity. lia. }
  unfold pop_local, get_top, get_age, load_bottom, store_bottom, fence,
    load_elem.
  seq_run. rewrite Hdirty. change (1 =? 0) with false.
  seq_run. rewrite !upd_same. cbn [with_bottom _age].
  rewrite Hdec, Hsz. change (0 <? 0) with false.
  seq_run. rewrite !upd_same. cbn [with_bottom _age].
  unfold pop_local_slow, cmpxchg. rewrite Z.eqb_refl.
  seq_run. rewrite !upd_same. cbn [with_bottom _age].
  rewrite Age_eqb_refl.
  seq_run. rewrite !upd_same. cbn [with_age _age].
  rewrite Hshort. reflexivity.
Qed.

(** X20: the stale thief of the comment in [pop_local_slow].  A thief reads
    the age word, [_bottom] and the only element [e] of a queue; before
    its compare-and-swap the owner pops [e] and pushes [t'] into the same
    slot.  The owner's calls both return true; the thief's
    compare-and-swap then fails, the tag having changed: it returns false
    (its [t] holding the stale [e]) and the queue still holds [t']. *)
Theorem stale_thief_loses (this : Z) (t1 t2 t' e : E) (h : heap E) :
  holds (h this) [e] ->
  let owner_calls : prog E ((bool * E) * bool) :=
    r <- pop_local this t1 ;; b <- push this t' ;; Ret (r, b) in
  let owner : heap E -> heap E :=
    fun g => snd (fst (run owner_calls no_interference g)) in
  let env : interference E :=
    fun i g => if Nat.eqb i 3 then owner g else g in
  let res := run (pop_global this t2) env h in
  fst (fst (run owner_calls no_interference h)) = ((true, e), true) /\
  fst (fst res) = (false, e) /\
  holds (snd (fst res) this) [t'] /\
  _elems (snd (fst res) this) (_top (_age (h this))) = t'.
Proof.
  intros Hh owner_calls owner env res.
  pose proof (pop_local_last_age this t1 e h Hh) as Hage1.
  destruct (pop_local_alone this t1 e [] h Hh) as (Hr1 & Hh1 & _).
  assert (Hown : fst (fst (run owner_calls no_interference h)) = ((true, e), true) /\
                 holds (owner h this) [t'] /\
                 _age (owner h this) =
                   mkAge (_top (_age (h this)))
                         (to_jushort (_tag (_age (h this)) + 1)) /\
                 _elems (owner h this) (_top (_age (h this))) = t').
  { unfold owner, owner_calls. rewrite run_bind_alone.
    destruct (run (pop_local this t1) no_interference h) as [[r1 h1] tr1].
    cbn [fst snd] in Hr1, Hh1, Hage1. subst r1.
    rewrite run_bind_alone.
    destruct (push_alone this t' [] h1 Hh1) as (Hr2 & Hh2 & Hage2 & _);
      [reflexivity |].
    pose proof Hh2 as Hh2keep.
    assert (Hslot : _elems (snd (fst (run (push this t') no_interference h1)) this)
                      (_top (_age (h this))) = t').
    { destruct Hh2 as ((Hb2 & _) & _ & Hd2 & Hslots2).
      pose proof (Hslots2 0%nat t' eq_refl) as Hs0.
      rewrite Hage2, Hage1 in Hd2. cbn [_top] in Hd2.
      change (Z.of_nat (length [t'])) with 1 in Hd2.
      change (Z.of_nat 0) with 0 in Hs0.
      destruct Hh as ((_ & Htop & _) & _).
      replace (_top (_age (h this)))
        with ((_bottom (snd (fst (run (push this t') no_interference h1)) this)
               - 1 - 0) mod n); [exact Hs0 |].
      clear Hs0 Hslots2. revert Hb2 Hd2.
      generalize (_bottom (snd (fst (run (push this t') no_interference h1)) this)).
      intros b2 Hb2 Hd2. mod_n. }
    pose proof Hh2keep as Hh2'. clear Hh2keep.
    destruct (run (push this t') no_interference h1) as [[r2 h2] tr2].
    cbn [fst snd run] in *. subst r2.
    split; [reflexivity |]. split; [exact Hh2' |].
    split; [rewrite Hage2; exact Hage1 | exact Hslot]. }
  destruct Hown as (Hres1 & Hholds & Hage & Hslot).
  split; [exact Hres1 |].
  destruct Hh as ((Hb & Htop & Htag) & Hcap & Hdirty & Hslots).
  change (Z.of_nat (length [e])) with 1 in Hdirty.
  assert (He : _elems (h this) (_top (_age (h this))) = e).
  { rewrite <- (Hslots 0%nat e eq_refl). f_equal. mod_n. }
  assert (Hsz : size (_bottom (h this)) (_top (_age (h this))) = 1).
  { rewrite size_cases, Hdirty. reflexivity. }
  assert (Hne : Age_eqb (_age (owner h this)) (_age (h this)) = false).
  { rewrite Hage. unfold Age_eqb, to_jushort. cbn [_tag _top].
    destruct (Z.eqb_spec ((_tag (_age (h this)) + 1) mod 2 ^ 16)
                (_tag (_age (h this)))) as [Heq | _]; [| reflexivity].
    exfalso. revert Heq. Z.div_mod_to_equations. lia. }
  unfold res. rewrite run_pop_global.
  change (env 0%nat h) with h.
  change (env 1%nat h) with h.
  change (env 2%nat h) with h.
  change (env 3%nat h) with (owner h).
  rewrite Hsz, He, Hne. change (1 =? 0) with false.
  cbn [fst snd].
  split; [reflexivity |]. split; [exact Hholds | exact Hslot].
Qed.

End Callers.

(** ** Instances of the theorems above *)

Ltac holds_slots i Hi :=
  lazymatch type of Hi with
  | nth_error [] _ = Some _ => destruct i; discriminate Hi
  | nth_error (_ :: _) _ = Some _ =>
      destruct i as [| i]; cbn [nth_error] in Hi;
      [injection Hi as <-; reflexivity | holds_slots i Hi]
  end.

Ltac holds_concrete :=
  unfold holds, well_formed;
  cbn [_bottom _age _top _tag _elems length app];
  repeat split; try reflexivity; try discriminate;
  let i := fresh "i" in
  let e := fresh "e" in
  let Hi := fresh "Hi" in
  intros i e Hi; cbn [app] in Hi; holds_slots i Hi.

(** [index_round_trip] at the last index. *)
Lemma index_round_trip_witness :
  0 <= 16383 < n /\
  (decrement_index (increment_index 16383) = 16383 /\
   increment_index (decrement_index 16383) = 16383 /\
   0 <= increment_index 16383 < n /\
   0 <= decrement_index 16383 < n /\
   increment_index (n - 1) = 0 /\
   decrement_index 0 = n - 1).
Proof.
  assert (H : 0 <= 16383 < n) by (split; [discriminate | reflexivity]).
  split; [exact H |].
  exact (index_round_trip 16383 H).
Defined.

(** [push_holds] on a queue of two elements. *)
Lemma push_holds_witness :
  (holds (counting_heap 2 0) [1; 0] /\ Z.of_nat (length [1; 0]) < n - 2) /\
  (let res := run (push 0 9) no_interference (counting_heap 2) in
   fst (fst res) = true /\
   holds (snd (fst res) 0) [9; 1; 0] /\
   _age (snd (fst res) 0) = _age (counting_heap 2 0) /\
   forall p : Z, p <> 0 -> snd (fst res) p = counting_heap 2 p).
Proof.
  assert (H1 : holds (counting_heap 2 0) [1; 0]) by holds_concrete.
  assert (H2 : Z.of_nat (length [1; 0]) < n - 2) by reflexivity.
  split; [split; [exact H1 | exact H2] |].
  exact (push_holds 0 9 [1; 0] (counting_heap 2) H1 H2).
Defined.

(** [pop_local_holds] on a queue of two elements. *)
Lemma pop_local_holds_witness :
  holds (counting_heap 2 0) [1; 0] /\
  (let res := run (pop_local 0 7) no_interference (counting_heap 2) in
   fst (fst res) = (true, 1) /\
   holds (snd (fst res) 0) [0] /\
   forall p : Z, p <> 0 -> snd (fst res) p = counting_heap 2 p).
Proof.
  assert (H1 : holds (counting_heap 2 0) [1; 0]) by holds_concrete.
  split; [exact H1 |].
  exact (pop_local_holds 0 7 1 [0] (counting_heap 2) H1).
Defined.

(** [pop_global_holds] on a queue of two elements. *)
Lemma pop_global_holds_witness :
  holds (counting_heap 2 0) ([1] ++ [0]) /\
  (let res := run (pop_global 0 7) no_interference (counting_heap 2) in
   fst (fst res) = (true, 0) /\
   holds (snd (fst res) 0) [1] /\
   _bottom (snd (fst res) 0) = _bottom (counting_heap 2 0) /\
   _elems (snd (fst res) 0) = _elems (counting_heap 2 0) /\
   forall p : Z, p <> 0 -> snd (fst res) p = counting_heap 2 p).
Proof.
  assert (H1 : holds (counting_heap 2 0) ([1] ++ [0])) by holds_concrete.
  split; [exact H1 |].
  exact (pop_global_holds 0 7 0 [1] (counting_heap 2) H1).
Defined.

(** [push_all_then_pop_local_reverses]: three elements over two. *)
Lemma push_all_then_pop_local_reverses_witness :
  (holds (counting_heap 2 0) [1; 0] /\
   Z.of_nat (length [1; 0]) + Z.of_nat (length [5; 6; 7]) <= n - 2) /\
  (let res :=
     run (b <- push_all 0 [5; 6; 7] ;;
          rs <- pop_local_n 0 (length [5; 6; 7]) 0 ;;
          Ret (b, rs)) no_interference (counting_heap 2) in
   fst (fst res) = (true, map (pair true) (rev [5; 6; 7])) /\
   holds (snd (fst res) 0) [1; 0] /\
   forall p : Z, p <> 0 -> snd (fst res) p = counting_heap 2 p).
Proof.
  assert (H1 : holds (counting_heap 2 0) [1; 0]) by holds_concrete.
  assert (H2 : Z.of_nat (length [1; 0]) + Z.of_nat (length [5; 6; 7]) <= n - 2)
    by discriminate.
  split; [split; [exact H1 | exact H2] |].
  exact (push_all_then_pop_local_reverses 0 [5; 6; 7] [1; 0] 0
           (counting_heap 2) H1 H2).
Defined.

(** [push_all_then_pop_global_keeps_order]: three elements, fresh queue. *)
Lemma push_all_then_pop_global_keeps_order_witness :
  (holds (fresh_heap 0) [] /\ Z.of_nat (length [5; 6; 7]) <= n - 2) /\
  (let res :=
     run (b <- push_all 0 [5; 6; 7] ;;
          rs <- pop_global_n 0 (length [5; 6; 7]) 0 ;;
          Ret (b, rs)) no_interference fresh_heap in
   fst (fst res) = (true, map (pair true) [5; 6; 7]) /\
   holds (snd (fst res) 0) [] /\
   forall p : Z, p <> 0 -> snd (fst res) p = fresh_heap p).
Proof.
  assert (H1 : holds (fresh_heap 0) []) by holds_concrete.
  assert (H2 : Z.of_nat (length [5; 6; 7]) <= n - 2) by discriminate.
  split; [split; [exact H1 | exact H2] |].
  exact (push_all_then_pop_global_keeps_order 0 [5; 6; 7] 0 fresh_heap H1 H2).
Defined.

(** [pop_global_is_thief] with no other thread. *)
Lemma pop_global_is_thief_witness :
  thieves_only 0 (@no_interference Z) /\
  (let h' := snd (fst (run (pop_global 0 7) no_interference (counting_heap 2))) in
   _bottom (h' 0) = _bottom (counting_heap 2 0) /\
   _elems (h' 0) = _elems (counting_heap 2 0)).
Proof.
  assert (H1 : thieves_only 0 (@no_interference Z))
    by (intros i h; split; reflexivity).
  split; [exact H1 |].
  exact (pop_global_is_thief 0 0 7 no_interference (counting_heap 2) H1).
Defined.

(** [pop_local_slow_retires_old_age] at the largest tag: it wraps to 0. *)
Lemma pop_local_slow_retires_old_age_witness :
  0 <= _tag (mkAge 0 65535) < 2 ^ 16 /\
  (let h' := snd (fst (run (pop_local_slow 0 0 (mkAge 0 65535))
                           no_interference (counting_heap 0))) in
   _tag (_age (h' 0)) = (_tag (mkAge 0 65535) + 1) mod 2 ^ 16 /\
   Age_eqb (_age (h' 0)) (mkAge 0 65535) = false /\
   run (cmpxchg 0 (mkAge 1 65535) (mkAge 0 65535)) no_interference h' =
     (_age (h' 0), h', [EvCmpxchg 0 (mkAge 1 65535) (mkAge 0 65535) (_age (h' 0))])).
Proof.
  assert (H1 : 0 <= _tag (mkAge 0 65535) < 2 ^ 16)
    by (split; [discriminate | reflexivity]).
  split; [exact H1 |].
  exact (pop_local_slow_retires_old_age 0 0 (mkAge 0 65535) (mkAge 1 65535)
           no_interference (counting_heap 0) H1).
Defined.

(** [pop_local_among_thieves] with no other thread. *)
Lemma pop_local_among_thieves_witness :
  thieves_only 0 (@no_interference Z) /\
  (let b := _bottom (counting_heap 2 0) in
   let top := _top (_age (counting_heap 2 0)) in
   let res := run (pop_local 0 7) no_interference (counting_heap 2) in
   let h' := snd (fst res) in
   _elems (h' 0) = _elems (counting_heap 2 0) /\
   if dirty_size b top =? 0 then
     fst (fst res) = (false, 7) /\ _bottom (h' 0) = b
   else
     snd (fst (fst res)) = _elems (counting_heap 2 0) (decrement_index b) /\
     _bottom (h' 0) = decrement_index b).
Proof.
  assert (H1 : thieves_only 0 (@no_interference Z))
    by (intros i h; split; reflexivity).
  split; [exact H1 |].
  exact (pop_local_among_thieves 0 7 no_interference (counting_heap 2) H1).
Defined.

(** [push_on_transient_encoding]: [_bottom] 0 and [top] 1. *)
Lemma push_on_transient_encoding_witness :
  (well_formed (mkTaskQueue 0 (mkAge 1 0) (fun j : Z => j)) /\
   dirty_size 0 1 = n - 1) /\
  (let h : heap Z := fun _ => mkTaskQueue 0 (mkAge 1 0) (fun j => j) in
   let res := run (push 0 9) no_interference h in
   let h' := snd (fst res) in
   fst (fst res) = true /\
   _elems (h' 0) (_bottom (h 0)) = 9 /\
   _bottom (h' 0) = _top (_age (h' 0)) /\
   dirty_size (_bottom (h' 0)) (_top (_age (h' 0))) = 0 /\
   (forall t0 : Z,
      fst (fst (run (pop_local 0 t0) no_interference h')) = (false, t0)) /\
   (forall t0 : Z,
      fst (fst (run (pop_global 0 t0) no_interference h')) = (false, t0))).
Proof.
  assert (H1 : well_formed (mkTaskQueue 0 (mkAge 1 0) (fun j : Z => j)))
    by (unfold well_formed; cbn [_bottom _age _top _tag];
        repeat split; try reflexivity; discriminate).
  assert (H2 : dirty_size 0 1 = n - 1) by reflexivity.
  split; [split; [exact H1 | exact H2] |].
  exact (push_on_transient_encoding 0 9
           (fun _ => mkTaskQueue 0 (mkAge 1 0) (fun j => j)) H1 H2).
Defined.

(** [drawn_victims_in_range] with the Park-Miller generator. *)
Lemma drawn_victims_in_range_witness :
  ((forall seed : Z, 0 <= fst (park_miller seed)) /\
   2 < _n (queue_set 4) /\
   draw_while park_miller (_n (queue_set 4)) 1 (fun k1 => k1 =? 0) 0 1
     = Some (3, 16807) /\
   draw_while park_miller (_n (queue_set 4)) 1
     (fun k2 => (k2 =? 0) || (k2 =? 3)) 0 16807 = Some (1, 282475249)) /\
  (0 <= 3 < _n (queue_set 4) /\ 0 <= 1 < _n (queue_set 4)).
Proof.
  assert (H1 : forall seed : Z, 0 <= fst (park_miller seed)).
  { intros seed. unfold park_miller. cbn [fst].
    apply Z.mod_pos_bound. reflexivity. }
  assert (H2 : 2 < _n (queue_set 4)) by reflexivity.
  assert (H3 : draw_while park_miller (_n (queue_set 4)) 1 (fun k1 => k1 =? 0)
                 0 1 = Some (3, 16807)) by reflexivity.
  assert (H4 : draw_while park_miller (_n (queue_set 4)) 1
                 (fun k2 => (k2 =? 0) || (k2 =? 3)) 0 16807
               = Some (1, 282475249)) by reflexivity.
  split; [repeat split; assumption |].
  exact (drawn_victims_in_range park_miller (queue_set 4) 1 0 1 3 16807 1
           282475249 H1 H2 H3 H4).
Defined.

(** [steal_best_of_all_alone]: queue [p] of four holds [p] elements. *)
Lemma steal_best_of_all_alone_witness :
  2 < _n (queue_set 4) /\
  ((exists kb : Z,
      0 <= kb < _n (queue_set 4) /\ kb <> 0 /\
      0 < size_in (queue_set 4) (fun p => counting_heap p p) kb /\
      (forall j : Z, 0 <= j < _n (queue_set 4) -> j <> 0 ->
                     size_in (queue_set 4) (fun p => counting_heap p p) j <=
                     size_in (queue_set 4) (fun p => counting_heap p p) kb) /\
      (forall j : Z, 0 <= j < kb -> j <> 0 ->
                     size_in (queue_set 4) (fun p => counting_heap p p) j <
                     size_in (queue_set 4) (fun p => counting_heap p p) kb) /\
      fst (run (steal_best_of_all (queue_set 4) 0 1 7) no_interference
               (fun p => counting_heap p p)) =
        (Some (fst (fst (run (pop_global (_queues (queue_set 4) kb) 7)
                             no_interference (fun p => counting_heap p p))),
               1),
         snd (fst (run (pop_global (_queues (queue_set 4) kb) 7)
                       no_interference (fun p => counting_heap p p)))))
   \/
   ((forall j : Z, 0 <= j < _n (queue_set 4) -> j <> 0 ->
                   size_in (queue_set 4) (fun p => counting_heap p p) j = 0) /\
    fst (run (steal_best_of_all (queue_set 4) 0 1 7) no_interference
             (fun p => counting_heap p p)) =
      (Some (false, 7, 1), fun p => counting_heap p p))).
Proof.
  assert (H1 : 2 < _n (queue_set 4)) by reflexivity.
  split; [exact H1 |].
  exact (steal_best_of_all_alone (queue_set 4) 0 1 7
           (fun p => counting_heap p p) H1).
Defined.


(** [last_element_race] under an alternating schedule: the thief wins. *)
Lemma last_element_race_witness :
  (holds (counting_heap 1 0) [0] /\
   interleave race_schedule (pop_local 0 7) (pop_global 0 8) (counting_heap 1)
   = (Ret (false, 0), Ret (true, 0),
      snd (interleave race_schedule (pop_local 0 7) (pop_global 0 8)
             (counting_heap 1)))) /\
  (let h' := snd (interleave race_schedule (pop_local 0 7) (pop_global 0 8)
                    (counting_heap 1)) in
   (((false, 0) = (true, 0) /\ fst (true, 0) = false) \/
    (fst (false, 0) = false /\ (true, 0) = (true, 0))) /\
   _bottom (h' 0) = _top (_age (h' 0)) /\
   _elems (h' 0) = _elems (counting_heap 1 0)).
Proof.
  assert (H1 : holds (counting_heap 1 0) [0]) by holds_concrete.
  assert (H2 : interleave race_schedule (pop_local 0 7) (pop_global 0 8)
                 (counting_heap 1)
               = (Ret (false, 0), Ret (true, 0),
                  snd (interleave race_schedule (pop_local 0 7) (pop_global 0 8)
                         (counting_heap 1)))) by reflexivity.
  split; [split; [exact H1 | exact H2] |].
  exact (last_element_race 0 7 8 0 (counting_heap 1) race_schedule
           (false, 0) (true, 0) _ H1 H2).
Defined.

(** [two_thieves] on two elements, under an alternating schedule. *)
Lemma two_thieves_witness :
  (holds (counting_heap 2 0) ([1] ++ [0]) /\
   interleave race_schedule (pop_global 0 7) (pop_global 0 8) (counting_heap 2)
   = (Ret (true, 0), Ret (false, 0),
      snd (interleave race_schedule (pop_global 0 7) (pop_global 0 8)
             (counting_heap 2)))) /\
  (let h' := snd (interleave race_schedule (pop_global 0 7) (pop_global 0 8)
                    (counting_heap 2)) in
   (((true, 0) = (true, 0) /\
     (fst (false, 0) = false \/
      exists l' e2, [1] = l' ++ [e2] /\ (false, 0) = (true, e2)))
    \/
    ((false, 0) = (true, 0) /\
     (fst (true, 0) = false \/
      exists l' e2, [1] = l' ++ [e2] /\ (true, 0) = (true, e2)))) /\
   _bottom (h' 0) = _bottom (counting_heap 2 0) /\
   _elems (h' 0) = _elems (counting_heap 2 0)).
Proof.
  assert (H1 : holds (counting_heap 2 0) ([1] ++ [0])) by holds_concrete.
  assert (H2 : interleave race_schedule (pop_global 0 7) (pop_global 0 8)
                 (counting_heap 2)
               = (Ret (true, 0), Ret (false, 0),
                  snd (interleave race_schedule (pop_global 0 7) (pop_global 0 8)
                         (counting_heap 2)))) by reflexivity.
  split; [split; [exact H1 | exact H2] |].
  exact (two_thieves 0 7 8 0 [1] (counting_heap 2) race_schedule
           (true, 0) (false, 0) _ H1 H2).
Defined.

(** [push_while_stolen] on two elements, under an alternating schedule. *)
Lemma push_while_stolen_witness :
  (holds (counting_heap 2 0) ([1] ++ [0]) /\
   Z.of_nat (length [1]) + 1 < n - 2 /\
   interleave race_schedule (push 0 9) (pop_global 0 8) (counting_heap 2)
   = (Ret true, Ret (true, 0),
      snd (interleave race_schedule (push 0 9) (pop_global 0 8)
             (counting_heap 2)))) /\
  (true = true /\ (true, 0) = (true, 0) /\
   holds (snd (interleave race_schedule (push 0 9) (pop_global 0 8)
                 (counting_heap 2)) 0) [9; 1]).
Proof.
  assert (H1 : holds (counting_heap 2 0) ([1] ++ [0])) by holds_concrete.
  assert (H2 : Z.of_nat (length [1]) + 1 < n - 2) by reflexivity.
  assert (H3 : interleave race_schedule (push 0 9) (pop_global 0 8)
                 (counting_heap 2)
               = (Ret true, Ret (true, 0),
                  snd (interleave race_schedule (push 0 9) (pop_global 0 8)
                         (counting_heap 2)))) by reflexivity.
  split; [split; [exact H1 | split; [exact H2 | exact H3]] |].
  exact (push_while_stolen 0 9 8 0 [1] (counting_heap 2) race_schedule
           true (true, 0) _ H1 H2 H3).
Defined.

(** [pop_local_while_stolen] on three elements, under an alternating
    schedule. *)
Lemma pop_local_while_stolen_witness :
  (holds (counting_heap 3 0) (2 :: [1] ++ [0]) /\
   interleave race_schedule (pop_local 0 7) (pop_global 0 8) (counting_heap 3)
   = (Ret (true, 2), Ret (true, 0),
      snd (interleave race_schedule (pop_local 0 7) (pop_global 0 8)
             (counting_heap 3)))) /\
  ((true, 2) = (true, 2) /\ (true, 0) = (true, 0) /\
   holds (snd (interleave race_schedule (pop_local 0 7) (pop_global 0 8)
                 (counting_heap 3)) 0) [1]).
Proof.
  assert (H1 : holds (counting_heap 3 0) (2 :: [1] ++ [0])) by holds_concrete.
  assert (H2 : interleave race_schedule (pop_local 0 7) (pop_global 0 8)
                 (counting_heap 3)
               = (Ret (true, 2), Ret (true, 0),
                  snd (interleave race_schedule (pop_local 0 7) (pop_global 0 8)
                         (counting_heap 3)))) by reflexivity.
  split; [split; [exact H1 | exact H2] |].
  exact (pop_local_while_stolen 0 7 8 2 0 [1] (counting_heap 3) race_schedule
           (true, 2) (true, 0) _ H1 H2).
Defined.

(** [queue_size_counts] on a queue of two elements. *)
Lemma queue_size_counts_witness :
  holds (counting_heap 2 0) [1; 0] /\
  (fst (run (queue_size 0) no_interference (counting_heap 2)) =
     (Z.of_nat (length [1; 0]), counting_heap 2) /\
   fst (run (queue_dirty_size 0) no_interference (counting_heap 2)) =
     (Z.of_nat (length [1; 0]), counting_heap 2)).
Proof.
  assert (H1 : holds (counting_heap 2 0) [1; 0]) by holds_concrete.
  split; [exact H1 |].
  exact (queue_size_counts 0 [1; 0] (counting_heap 2) H1).
Defined.

(** [steal_in_a_set_of_two]: queue 1 steals from queue 0. *)
Lemma steal_in_a_set_of_two_witness :
  (_n (queue_set 2) = 2 /\ 0 <= 1 < 2 /\
   holds (counting_heap 2 (_queues (queue_set 2) (1 - 1))) [1; 0]) /\
  (let other := _queues (queue_set 2) (1 - 1) in
   let res := run (steal park_miller 0 (queue_set 2) 1 1 7)
                  no_interference (counting_heap 2) in
   ([1; 0] = [] /\ fst res = (Some (false, 7, 1), counting_heap 2))
   \/
   (exists (l' : list Z) (e : Z),
      [1; 0] = l' ++ [e] /\
      fst (fst res) = Some (true, e, 1) /\
      holds (snd (fst res) other) l' /\
      forall p : Z, p <> other -> snd (fst res) p = counting_heap 2 p)).
Proof.
  assert (H1 : _n (queue_set 2) = 2) by reflexivity.
  assert (H2 : 0 <= 1 < 2) by (split; [discriminate | reflexivity]).
  assert (H3 : holds (counting_heap 2 (_queues (queue_set 2) (1 - 1))) [1; 0])
    by holds_concrete.
  split; [split; [exact H1 | split; [exact H2 | exact H3]] |].
  exact (steal_in_a_set_of_two park_miller 0 (queue_set 2) 1 1 7 [1; 0]
           (counting_heap 2) H1 H2 H3).
Defined.

(** [stale_thief_loses] on a queue of one element. *)
Lemma stale_thief_loses_witness :
  holds (counting_heap 1 0) [0] /\
  (let owner_calls : prog Z ((bool * Z) * bool) :=
     r <- pop_local 0 7 ;; b <- push 0 9 ;; Ret (r, b) in
   let owner : heap Z -> heap Z :=
     fun g => snd (fst (run owner_calls no_interference g)) in
   let env : interference Z :=
     fun i g => if Nat.eqb i 3 then owner g else g in
   let res := run (pop_global 0 8) env (counting_heap 1) in
   fst (fst (run owner_calls no_interference (counting_heap 1)))
     = ((true, 0), true) /\
   fst (fst res) = (false, 0) /\
   holds (snd (fst res) 0) [9] /\
   _elems (snd (fst res) 0) (_top (_age (counting_heap 1 0))) = 9).
Proof.
  assert (H1 : holds (counting_heap 1 0) [0]) by holds_concrete.
  split; [exact H1 |].
  exact (stale_thief_loses 0 7 8 9 0 (counting_heap 1) H1).
Defined.
